(** * koishi-plugin-gitlab-webhook: the event router and its formatters

    A shallow embedding of [src/index.ts]: the strings and regular
    expressions the formatters use, the five formatters registered with
    [webhook.on], the wrapper [wrapHandler] that routes a formatted message
    to the configured groups, and the registries [webhooks] and [servers]
    that [apply] fills. *)

From Stdlib Require Import ZArith NArith Ascii String DecimalString.
From Equations Require Import Equations.
From stdpp Require Import gmap list.

Open Scope N_scope.

(** ** Strings

    A JavaScript string is a sequence of UTF-16 code units; the regular
    expressions of the source carry no [u] flag, so they too work on code
    units. *)

Abbreviation jsstring := (list N).

(** A source literal, code unit by code unit. *)
Definition lit (s : string) : jsstring := N_of_ascii <$> list_ascii_of_string s.

(** [Number::toString] of an integer (decimal digits, a leading [-] when
    negative); the numbers printed here are GitLab identifiers and TCP
    ports, far below 1e21 where the exponent notation starts. *)
Definition number_to_string (z : Z) : jsstring :=
  lit (NilZero.string_of_int (Z.to_int z)).

Definition nl : N := 10.
Definition zero_digit : N := 48.

(** [Array.prototype.join (sep)]. *)
Fixpoint join (sep : jsstring) (parts : list jsstring) : jsstring :=
  match parts with
  | [] => []
  | [p] => p
  | p :: rest => p ++ sep ++ join sep rest
  end.

(** [String.prototype.split (sep)] for a separator of one code unit. *)
Fixpoint split (sep : N) (s : jsstring) : list jsstring :=
  match s with
  | [] => [[]]
  | c :: s' =>
      if N.eqb c sep then [] :: split sep s'
      else match split sep s' with
           | l :: ls => (c :: l) :: ls
           | [] => [[c]]
           end
  end.

(** [String.prototype.slice (n)] for [0 <= n]. *)
Definition slice (n : nat) (s : jsstring) : jsstring := drop n s.

(** ** Regular expressions *)

(** The class [\s]: WhiteSpace and LineTerminator of ECMAScript. *)
Definition is_space (c : N) : bool :=
  (9 <=? c) && (c <=? 13)
  || (c =? 32) || (c =? 160) || (c =? 5760)
  || (8192 <=? c) && (c <=? 8202)
  || (c =? 8232) || (c =? 8233) || (c =? 8239) || (c =? 8287)
  || (c =? 12288) || (c =? 65279).

(** [0+$] tried at the current position: the greedy [0+] has taken one
    [0] already; it takes every further [0] and [$] must then hold. *)
Fixpoint zeros_to_end (s : jsstring) : bool :=
  match s with
  | [] => true
  | c :: s' => (c =? zero_digit) && zeros_to_end s'
  end.

(** [/^0+$/.test (s)]: [^] anchors the match at the first code unit. *)
Definition test_zero_hash (s : jsstring) : bool :=
  match s with
  | [] => false
  | c :: s' => (c =? zero_digit) && zeros_to_end s'
  end.

(** [\s*\n] tried at the head of [s], as the backtracking matcher runs it:
    the greedy star first takes the code unit as [\s] and goes on; when that
    fails it gives the code unit back and tries [\n] on it. The result is
    what follows the match. *)
Fixpoint skip_blank (s : jsstring) : option jsstring :=
  match s with
  | [] => None
  | c :: s' =>
      if is_space c then
        match skip_blank s' with
        | Some r => Some r
        | None => if c =? nl then Some s' else None
        end
      else None
  end.

(** [/\n\s*\n/] tried at the head of [s]. *)
Definition match_blank_run (s : jsstring) : option jsstring :=
  match s with
  | [] => None
  | c :: s' => if c =? nl then skip_blank s' else None
  end.

Definition inspect {A} (a : A) : {b : A | a = b} := exist _ a eq_refl.

(** [s.replace (/\n\s*\n/g, '\n')]: scanning from the left, a match is
    replaced by one newline and the scan resumes after it; a code unit
    where no match starts is copied. *)
Equations? collapse (s : jsstring) : jsstring by wf (length s) lt :=
  collapse [] := [];
  collapse (c :: s') with inspect (match_blank_run (c :: s')) => {
    | exist _ (Some r) H := nl :: collapse r;
    | exist _ None _ := c :: collapse s' }.
Proof.
  - clear collapse. simpl in H. destruct (c =? nl)%N; [|done].
    enough (∀ s r, skip_blank s = Some r → (length r < length s)%nat) as Hlen
      by (apply Hlen in H; simpl; lia).
    clear. intros s. induction s as [|c s IH]; intros r; simpl; [done|].
    destruct (is_space c); [|done].
    destruct (skip_blank s) as [r'|].
    + intros [= <-]. specialize (IH r' eq_refl). lia.
    + destruct (c =? nl)%N; [|done]. intros [= <-]. lia.
  - simpl. lia.
Qed.

Close Scope N_scope.

(** ** Events

    The payload types of [node-gitlab-webhook/interfaces], with the fields
    the handlers read. *)

Module Interfaces.

Record Project := { path_with_namespace : jsstring }.
Record Commit := { message : jsstring }.
Record User := { name : jsstring }.

Module PushEvent.
Record t := mk {
  user_name : jsstring;
  commits : list Commit;
  project : Project;
  ref : jsstring;
  after : jsstring }.
End PushEvent.

Module TagPushEvent.
Record t := mk { project : Project; ref : jsstring }.
End TagPushEvent.

Module IssueEvent.
Record attributes := mk_attributes {
  action : jsstring;
  iid : Z;
  title : jsstring;
  url : jsstring;
  description : jsstring }.
Record t := mk {
  user : User;
  project : Project;
  object_attributes : attributes }.
End IssueEvent.

Module NoteEvent.
Record attributes := mk_attributes {
  noteable_type : jsstring;
  url : jsstring;
  note : jsstring }.
(** The merge request or issue a comment hangs on: present in the
    payload when the comment is on one. *)
Record noteable := { iid : Z }.
Record t := mk {
  user : User;
  project : Project;
  object_attributes : attributes;
  merge_request : option noteable;
  issue : option noteable }.
End NoteEvent.

Module MergeRequestEvent.
Record attributes := mk_attributes {
  action : jsstring;
  iid : Z;
  target : Project;
  target_branch : jsstring;
  source : Project;
  source_branch : jsstring;
  url : jsstring;
  title : jsstring }.
Record t := mk {
  user : User;
  project : Project;
  object_attributes : attributes }.
End MergeRequestEvent.

Record EventData (T : Type) := { payload : T }.
Arguments payload {T} _.

End Interfaces.
Import Interfaces.

(** [interface RepositoryPayload { project: Interfaces.Project }]. *)
Class RepositoryPayload (T : Type) := project : T → Project.

#[export] Instance push_payload : RepositoryPayload PushEvent.t := PushEvent.project.
#[export] Instance tag_push_payload : RepositoryPayload TagPushEvent.t := TagPushEvent.project.
#[export] Instance issue_payload : RepositoryPayload IssueEvent.t := IssueEvent.project.
#[export] Instance note_payload : RepositoryPayload NoteEvent.t := NoteEvent.project.
#[export] Instance merge_request_payload : RepositoryPayload MergeRequestEvent.t :=
  MergeRequestEvent.project.

(** ** Completions

    A call returns a value or throws; the promise of an async function is
    fulfilled with the value or rejected with what was thrown. *)

Inductive exn :=
  | TypeError                   (* a property read on [undefined], a [for-of] over what is not iterable *)
  | DeliveryError (code : Z).   (* a rejected delivery request *)

Inductive completion (A : Type) :=
  | Return (a : A)
  | Throw (e : exn).
Arguments Return {A} a.
Arguments Throw {A} e.

(** What a handler gives back: a message, or [undefined]. *)
Abbreviation reply := (completion (option jsstring)).

(** ** The formatters *)

Definition LF : jsstring := [nl].

(** [webhook.on ('push', ...)]. *)
Definition push_handler (e : PushEvent.t) : reply :=
  if test_zero_hash (PushEvent.after e) then Return None
  else Return (Some (join LF (
    [ lit "[GitLab] Push (" ++ path_with_namespace (PushEvent.project e) ++ lit ")";
      lit "Ref: " ++ PushEvent.ref e;
      lit "User: " ++ PushEvent.user_name e ]
    ++ map (λ c, collapse (message c)) (PushEvent.commits e)))).

(** [webhook.on ('tag_push', ...)]. *)
Definition tag_push_handler (e : TagPushEvent.t) : reply :=
  Return (Some (lit "[GitLab] " ++ path_with_namespace (TagPushEvent.project e)
                ++ lit " published tag " ++ slice 10 (TagPushEvent.ref e))).

(** [webhook.on ('issue', ...)]. *)
Definition issue_handler (e : IssueEvent.t) : reply :=
  let object_attributes := IssueEvent.object_attributes e in
  if decide (IssueEvent.action object_attributes = lit "open") then
    Return (Some (join LF
      [ lit "[GitLab] Issue Opened (" ++ path_with_namespace (IssueEvent.project e)
          ++ lit "#" ++ number_to_string (IssueEvent.iid object_attributes) ++ lit ")";
        lit "Title: " ++ IssueEvent.title object_attributes;
        lit "User: " ++ name (IssueEvent.user e);
        lit "URL: " ++ IssueEvent.url object_attributes;
        collapse (IssueEvent.description object_attributes) ]))
  else Return None.

(** [webhook.on ('note', ...)]. *)
Definition note_handler (e : NoteEvent.t) : reply :=
  let object_attributes := NoteEvent.object_attributes e in
  let noteable_type := NoteEvent.noteable_type object_attributes in
  if decide (noteable_type = lit "Commit") then
    Return (Some (join LF
      [ lit "[GitLab] Commit Comment (" ++ path_with_namespace (NoteEvent.project e) ++ lit ")";
        lit "User: " ++ name (NoteEvent.user e);
        lit "URL: " ++ NoteEvent.url object_attributes;
        collapse (NoteEvent.note object_attributes) ]))
  else if decide (noteable_type = lit "MergeRequest") then
    match NoteEvent.merge_request e with
    | None => Throw TypeError
    | Some merge_request =>
        Return (Some (join LF
          [ lit "[GitLab] Merge Request Comment ("
              ++ path_with_namespace (NoteEvent.project e)
              ++ lit "#" ++ number_to_string (NoteEvent.iid merge_request) ++ lit ")";
            lit "User: " ++ name (NoteEvent.user e);
            lit "URL: " ++ NoteEvent.url object_attributes;
            collapse (NoteEvent.note object_attributes) ]))
    end
  else if decide (noteable_type = lit "Issue") then
    match NoteEvent.issue e with
    | None => Throw TypeError
    | Some issue =>
        Return (Some (join LF
          [ lit "[GitLab] Issue Comment ("
              ++ path_with_namespace (NoteEvent.project e)
              ++ lit "#" ++ number_to_string (NoteEvent.iid issue) ++ lit ")";
            lit "User: " ++ name (NoteEvent.user e);
            lit "URL: " ++ NoteEvent.url object_attributes;
            collapse (NoteEvent.note object_attributes) ]))
    end
  else Return None.

(** [webhook.on ('merge_request', ...)]. *)
Definition merge_request_handler (e : MergeRequestEvent.t) : reply :=
  let object_attributes := MergeRequestEvent.object_attributes e in
  if decide (MergeRequestEvent.action object_attributes = lit "open") then
    Return (Some (join LF
      [ lit "[GitLab] Pull Request Opened ("
          ++ path_with_namespace (MergeRequestEvent.project e)
          ++ lit "#" ++ number_to_string (MergeRequestEvent.iid object_attributes) ++ lit ")";
        path_with_namespace (MergeRequestEvent.target object_attributes) ++ lit "/"
          ++ MergeRequestEvent.target_branch object_attributes ++ lit " <- "
          ++ path_with_namespace (MergeRequestEvent.source object_attributes) ++ lit "/"
          ++ MergeRequestEvent.source_branch object_attributes;
        lit "User: " ++ name (MergeRequestEvent.user e);
        lit "URL: " ++ MergeRequestEvent.url object_attributes;
        collapse (MergeRequestEvent.title object_attributes) ]))
  else Return None.

(** ** The router

    An async function runs against the chat dispatcher: the state it
    threads is the list of delivery requests made so far, oldest first. *)

Record call := Call { group : Z; text : jsstring }.

Definition Async (A : Type) : Type := list call → list call * completion A.

#[export] Instance async_ret : MRet Async := λ A a log, (log, Return a).

#[export] Instance async_bind : MBind Async := λ A B f m log,
  match m log with
  | (log', Return a) => f a log'
  | (log', Throw e) => (log', Throw e)
  end.

(** [await] on the result of a plain call. *)
Definition await {A} (c : completion A) : Async A := λ log, (log, c).

(** [for (const x of xs) { await body (x) }]. *)
Fixpoint for_of {A} (xs : list A) (body : A → Async ()) : Async () :=
  match xs with
  | [] => mret ()
  | x :: rest => body x ≫= λ _, for_of rest body
  end.

(** The names under which a plain object finds a member of
    [Object.prototype]: the methods of the language and the accessors of
    its annex B. Each is a function or an object: truthy, and nothing a
    [for-of] can iterate. *)
Definition Object_prototype : list jsstring :=
  lit <$> [ "constructor"; "hasOwnProperty"; "isPrototypeOf"; "propertyIsEnumerable";
            "toLocaleString"; "toString"; "valueOf"; "__proto__";
            "__defineGetter__"; "__defineSetter__";
            "__lookupGetter__"; "__lookupSetter__" ]%string.

(** What indexing [options] gives when it is not [undefined]: the array of
    an own property, or an inherited member. *)
Inductive found :=
  | Groups (groups : list Z)
  | Member.

Section router.

(** The chat dispatcher of the host ([ctx.sender]): given the requests
    already made, whether the promise of the next one is fulfilled
    ([None]) or rejected. *)
Context (sender : list call → Z → jsstring → option exn).

(** [await ctx.sender.sendGroupMsgAsync (id, message)]. *)
Definition sendGroupMsgAsync (id : Z) (message : jsstring) : Async () :=
  λ log,
    (log ++ [Call id message],
     match sender log id message with
     | None => Return ()
     | Some e => Throw e
     end).

(** The plugin's [options], a plain object: its own properties, project
    path to group identifiers. *)
Context (options : gmap jsstring (list Z)).

(** [options[key]]: an own property, else what the object inherits under
    that name, else [undefined]. *)
Definition property_of (key : jsstring) : option found :=
  match options !! key with
  | Some groups => Some (Groups groups)
  | None => if bool_decide (key ∈ Object_prototype) then Some Member else None
  end.

Definition wrapHandler {T} `{RepositoryPayload T}
    (handler : T → reply) (event : EventData T) : Async () :=
  let project := project (payload event) in
  match property_of (path_with_namespace project) with
  | None => mret ()
  | Some groups =>
      message ← await (handler (payload event));
      match message with
      | None | Some [] => mret ()
      | Some message =>
          match groups with
          | Groups groups => for_of groups (λ id, sendGroupMsgAsync id message)
          | Member => await (Throw TypeError)
          end
      end
  end.

End router.

(** ** Registration *)

(** [interface WebhookConfig]: every field may be left out. *)
Record WebhookConfig := {
  port : option Z;
  secret : option jsstring;
  path : option jsstring }.

(** [Interfaces.Option], what [WebhookHandler] is built from. *)
Record Option := { option_port : Z; option_secret : jsstring; option_path : jsstring }.

Definition defaultOptions : Option :=
  {| option_port := 12140; option_secret := []; option_path := lit "/" |}.

(** [{ ...defaultOptions, ...ctx.app.options.gitlabWebhook }]. *)
Definition spread (defaults : Option) (given : option WebhookConfig) : Option :=
  match given with
  | None => defaults
  | Some c =>
      {| option_port := default (option_port defaults) (port c);
         option_secret := default (option_secret defaults) (secret c);
         option_path := default (option_path defaults) (path c) |}
  end.

(** The module-level registries and the objects they point to. A receiver
    [WebhookHandler (config)] and an [http.Server] are objects: each is
    named by its place in the list of those created so far; a server is
    listed with the receiver it was created on and the port its start hook
    listens on. *)
Record registry := {
  webhooks : gmap jsstring nat;       (* key to receiver *)
  servers : gmap Z nat;               (* port to server *)
  receivers : list Option;            (* receivers created, with their configuration *)
  listeners : list (nat * Z);         (* servers created: receiver served, port of [listen] *)
  routes : list (nat * gmap jsstring (list Z)) (* [webhook.on]: receiver, options routed by *)
}.

Definition empty_registry : registry :=
  {| webhooks := ∅; servers := ∅; receivers := []; listeners := []; routes := [] |}.

(** [config.path + config.secret + config.port]. The key ends with the
    digits of the port, which no name of an inherited member does, so that
    indexing [webhooks] and [servers] finds own properties only. *)
Definition key_of (config : Option) : jsstring :=
  option_path config ++ option_secret config ++ number_to_string (option_port config).

(** [apply (ctx, options)], on the configuration [ctx.app.options.gitlabWebhook]
    of the context's app. It gives back the configuration it stores there and
    the receiver it registers its five handlers with. *)
Definition apply (given : option WebhookConfig) (options : gmap jsstring (list Z))
    (r : registry) : registry * Option * nat :=
  let config := spread defaultOptions given in
  let key := key_of config in
  let '(r1, webhook) :=
    match webhooks r !! key with
    | Some webhook => (r, webhook)
    | None =>
        let webhook := length (receivers r) in
        ({| webhooks := <[key := webhook]> (webhooks r);
            servers := servers r;
            receivers := receivers r ++ [config];
            listeners := listeners r;
            routes := routes r |}, webhook)
    end in
  let r2 :=
    match servers r1 !! option_port config with
    | Some _ => r1
    | None =>
        {| webhooks := webhooks r1;
           servers := <[option_port config := length (listeners r1)]> (servers r1);
           receivers := receivers r1;
           listeners := listeners r1 ++ [(webhook, option_port config)];
           routes := routes r1 |}
    end in
  ({| webhooks := webhooks r2;
      servers := servers r2;
      receivers := receivers r2;
      listeners := listeners r2;
      routes := routes r2 ++ [(webhook, options)] |},
   config, webhook).

(** A run of [apply] calls, one after the other; the receivers they used. *)
Fixpoint apply_all (calls : list (option WebhookConfig * gmap jsstring (list Z)))
    (r : registry) : registry * list nat :=
  match calls with
  | [] => (r, [])
  | (given, options) :: rest =>
      let '(r', _, webhook) := apply given options r in
      let '(r'', used) := apply_all rest r' in
      (r'', webhook :: used)
  end.

(** * Specification vocabulary

    The words of the specification, and sample events to try them on. *)

(** The strings [/^0+$/] accepts, in words: not empty, and nothing but
    the digit 0. *)
Definition zero_hash (s : jsstring) : Prop := s ≠ [] ∧ Forall (λ c, c = zero_digit) s.

Definition blank (w : jsstring) : Prop := Forall (λ c, is_space c = true) w.

(** A blank-line run: a newline, a newline further on, and nothing but
    white space (newlines among it) between the two. *)
Definition blank_run (x : jsstring) : Prop := ∃ w, x = nl :: w ++ [nl] ∧ blank w.

(** White space up to a newline opens the text. *)
Definition opens_blank (v : jsstring) : Prop := ∃ w v', v = w ++ nl :: v' ∧ blank w.

(** A newline and white space after it close the text. *)
Definition closes_blank (u : jsstring) : Prop := ∃ u' w, u = u' ++ nl :: w ∧ blank w.

Definition has_blank_run (s : jsstring) : Prop := ∃ u x v, s = u ++ x ++ v ∧ blank_run x.

(** The amended C8 in its own words: the text with its blank-line runs
    collapsed. Left to right, what stands before a run is kept as it is,
    the run, taken as long as it can be, becomes one newline, and the text
    after it is treated the same way; a text without a run is kept. *)
Inductive runs_collapsed : jsstring → jsstring → Prop :=
  | runs_collapsed_none (s : jsstring) :
      ¬ has_blank_run s → runs_collapsed s s
  | runs_collapsed_first (u x v v' : jsstring) :
      ¬ has_blank_run u → ¬ closes_blank u →
      blank_run x →
      ¬ opens_blank v →
      runs_collapsed v v' →
      runs_collapsed (u ++ x ++ v) (u ++ nl :: v').

(** C8 in its own words, the white space around the newlines taken into
    the run: a stretch of white space that holds two newlines or more
    becomes one newline, and any other stretch is kept. [pending] is the
    stretch being read, last code unit first. *)
Definition settle (pending : jsstring) : jsstring :=
  if decide (2 ≤ length (filter (λ c, c = nl) pending))%nat then [nl] else reverse pending.

Fixpoint collapse_as_worded_from (pending s : jsstring) : jsstring :=
  match s with
  | [] => settle pending
  | c :: s' =>
      if is_space c then collapse_as_worded_from (c :: pending) s'
      else settle pending ++ c :: collapse_as_worded_from [] s'
  end.

Definition collapse_as_worded (s : jsstring) : jsstring := collapse_as_worded_from [] s.

(** C8 read that way on one issue event. *)
Definition issue_as_worded (e : IssueEvent.t) : Prop :=
  let a := IssueEvent.object_attributes e in
  IssueEvent.action a = lit "open" →
  issue_handler e
  = Return (Some (join LF
      [ lit "[GitLab] Issue Opened (" ++ path_with_namespace (IssueEvent.project e)
          ++ lit "#" ++ number_to_string (IssueEvent.iid a) ++ lit ")";
        lit "Title: " ++ IssueEvent.title a;
        lit "User: " ++ name (IssueEvent.user e);
        lit "URL: " ++ IssueEvent.url a;
        collapse_as_worded (IssueEvent.description a) ])).

(** The reading of C3 on one routed event: every group of the project is
    asked, and the router's promise is fulfilled. *)
Definition requests_independent {T} `{RepositoryPayload T}
    (sender : list call → Z → jsstring → option exn)
    (options : gmap jsstring (list Z))
    (handler : T → reply) (event : EventData T) : Prop :=
  ∀ groups message,
    options !! path_with_namespace (project (payload event)) = Some groups →
    handler (payload event) = Return (Some message) →
    message ≠ [] →
    (∀ id, id ∈ groups →
       Call id message ∈ (wrapHandler sender options handler event []).1)
    ∧ (wrapHandler sender options handler event []).2 = Return ().

(** The dispatcher accepts the requests for [groups], one after the
    other from [log] on: each at the point where the loop makes it. *)
Definition accepted (sender : list call → Z → jsstring → option exn)
    (log : list call) (message : jsstring) (groups : list Z) : Prop :=
  ∀ before id after,
    groups = before ++ id :: after →
    sender (log ++ map (λ id, Call id message) before) id message = None.

(** C2 read on one routed event: each group of the project is asked once. *)
Definition once_per_group {T} `{RepositoryPayload T}
    (sender : list call → Z → jsstring → option exn)
    (options : gmap jsstring (list Z))
    (handler : T → reply) (event : EventData T) : Prop :=
  ∀ groups message,
    options !! path_with_namespace (project (payload event)) = Some groups →
    handler (payload event) = Return (Some message) →
    message ≠ [] →
    ∀ id, id ∈ groups →
      length (filter (λ c, group c = id ∧ text c = message)
                (wrapHandler sender options handler event []).1) = 1%nat.

(** A dispatcher that breaks down once [n] requests have been made. *)
Definition breaking_after (n : nat) : list call → Z → jsstring → option exn :=
  λ log _ _, if decide (length log < n)%nat then None else Some (DeliveryError 100).

(** Options that list a group twice. *)
Definition twice_options : gmap jsstring (list Z) :=
  {[ lit "koishijs/koishi" := [10001; 10002; 10001]%Z ]}.

(** C5 read on one push: three header lines and one line per commit. *)
Definition push_line_count (e : PushEvent.t) : Prop :=
  ¬ zero_hash (PushEvent.after e) →
  ∃ out, push_handler e = Return (Some out)
         ∧ length (split nl out) = (3 + length (PushEvent.commits e))%nat.

(** C7 read on one issue event: an opened issue gets a message of five
    lines. *)
Definition issue_five_lines (e : IssueEvent.t) : Prop :=
  IssueEvent.action (IssueEvent.object_attributes e) = lit "open" →
  ∃ out, issue_handler e = Return (Some out) ∧ length (split nl out) = 5%nat.

(** Every listening port has its entry in [servers], and no port has two
    servers. *)
Definition one_server_per_port (r : registry) : Prop :=
  NoDup (listeners r).*2 ∧ ∀ p, p ∈ (listeners r).*2 → is_Some (servers r !! p).

(** A dispatcher that accepts every request. *)
Definition accepting : list call → Z → jsstring → option exn := λ _ _ _, None.

(** A dispatcher that rejects the requests for one group. *)
Definition rejecting (bad : Z) : list call → Z → jsstring → option exn :=
  λ _ id _, if decide (id = bad) then Some (DeliveryError 100) else None.

Definition sample_options : gmap jsstring (list Z) :=
  {[ lit "koishijs/koishi" := [10001; 10002; 10003]%Z ]}.

Definition sample_tag (repository : string) : EventData TagPushEvent.t :=
  {| payload := TagPushEvent.mk {| path_with_namespace := lit repository |}
                                (lit "refs/tags/v1.0.0") |}.

Definition sample_push (after : string) (messages : list string) : PushEvent.t :=
  PushEvent.mk (lit "shigma") (map (λ m, {| message := lit m |}) messages)
    {| path_with_namespace := lit "koishijs/koishi" |}
    (lit "refs/heads/master") (lit after).

Definition sample_issue (action description : string) : IssueEvent.t :=
  IssueEvent.mk {| name := lit "shigma" |}
    {| path_with_namespace := lit "koishijs/koishi" |}
    (IssueEvent.mk_attributes (lit action) 42 (lit "No message on tag push")
       (lit "https://gitlab.com/koishijs/koishi/-/issues/42") (lit description)).

Definition sample_note (noteable_type note : string) : NoteEvent.t :=
  NoteEvent.mk {| name := lit "shigma" |}
    {| path_with_namespace := lit "koishijs/koishi" |}
    (NoteEvent.mk_attributes (lit noteable_type)
       (lit "https://gitlab.com/koishijs/koishi/-/issues/42#note_7") (lit note))
    None (Some {| NoteEvent.iid := 42 |}).

(** What shows of a text: its code units that are not white space. *)
Definition visible (s : jsstring) : jsstring := filter (λ c, is_space c = false) s.

(** [announced out]: [out] is the message one of the five handlers gives
    for some event. *)
Inductive announced : jsstring → Prop :=
  | announced_push (e : PushEvent.t) (out : jsstring) :
      push_handler e = Return (Some out) → announced out
  | announced_tag_push (e : TagPushEvent.t) (out : jsstring) :
      tag_push_handler e = Return (Some out) → announced out
  | announced_issue (e : IssueEvent.t) (out : jsstring) :
      issue_handler e = Return (Some out) → announced out
  | announced_note (e : NoteEvent.t) (out : jsstring) :
      note_handler e = Return (Some out) → announced out
  | announced_merge_request (e : MergeRequestEvent.t) (out : jsstring) :
      merge_request_handler e = Return (Some out) → announced out.

Definition sample_merge_request (action title : string) : MergeRequestEvent.t :=
  MergeRequestEvent.mk {| name := lit "shigma" |}
    {| path_with_namespace := lit "koishijs/koishi" |}
    (MergeRequestEvent.mk_attributes (lit action) 7
       {| path_with_namespace := lit "koishijs/koishi" |} (lit "master")
       {| path_with_namespace := lit "shigma/koishi" |} (lit "fix-tags")
       (lit "https://gitlab.com/koishijs/koishi/-/merge_requests/7")
       (lit title)).

(** What [ctx.app.options.gitlabWebhook] holds once [apply] has stored
    its configuration there: every field given. *)
Definition store (config : Option) : option WebhookConfig :=
  Some {| port := Some (option_port config);
          secret := Some (option_secret config);
          path := Some (option_path config) |}.

(** The key and the port of a call of [apply]. *)
Definition call_key (c : option WebhookConfig * gmap jsstring (list Z)) : jsstring :=
  key_of (spread defaultOptions c.1).

Definition call_port (c : option WebhookConfig * gmap jsstring (list Z)) : Z :=
  option_port (spread defaultOptions c.1).

(** A registered key names a receiver built from a configuration with
    that key. *)
Definition keyed (r : registry) : Prop :=
  ∀ k w, webhooks r !! k = Some w → ∃ c, receivers r !! w = Some c ∧ key_of c = k.

(** The receivers created have the registered keys, no two the same one. *)
Definition one_receiver_per_key (r : registry) : Prop :=
  NoDup (key_of <$> receivers r)
  ∧ ∀ k, k ∈ key_of <$> receivers r ↔ is_Some (webhooks r !! k).

(** A port with an entry in [servers] has a server listening on it. *)
Definition ports_listed (r : registry) : Prop :=
  ∀ p, is_Some (servers r !! p) → p ∈ (listeners r).*2.

(** The code units of the decimal digits. *)
Definition is_digit (d : N) : Prop := (48 ≤ d ≤ 57)%N.

(** * Properties *)

(** ** The code on small inputs *)

Example test_zero_hash_deleted :
  test_zero_hash (lit "0000000000000000000000000000000000000000") = true.
Proof. reflexivity. Qed.

Example test_zero_hash_empty : test_zero_hash [] = false.
Proof. reflexivity. Qed.

Example test_zero_hash_commit :
  test_zero_hash (lit "00a0000000000000000000000000000000000000") = false.
Proof. reflexivity. Qed.

Example collapse_paragraphs :
  collapse (lit "fix bug

details


more") = lit "fix bug
details
more".
Proof. reflexivity. Qed.

(** White space between the newlines of a run goes with the run; white
    space before the first newline and after the last one stays. *)
Example collapse_keeps_outer_space :
  collapse (lit "a" ++ [32; 10; 9; 32; 10; 12288; 10; 32]%N ++ lit "b")
  = lit "a" ++ [32; 10; 32]%N ++ lit "b".
Proof. reflexivity. Qed.

Example collapse_single_newlines :
  collapse (lit "subject
body
") = lit "subject
body
".
Proof. reflexivity. Qed.

Example split_lines : split nl (lit "a

b
") = [lit "a"; []; lit "b"; []].
Proof. reflexivity. Qed.

Example key_of_defaults : key_of (spread defaultOptions None) = lit "/12140".
Proof. reflexivity. Qed.

Example merge_request_opened :
  merge_request_handler
    (MergeRequestEvent.mk {| name := lit "shigma" |}
       {| path_with_namespace := lit "koishijs/koishi" |}
       (MergeRequestEvent.mk_attributes (lit "open") 7
          {| path_with_namespace := lit "koishijs/koishi" |} (lit "master")
          {| path_with_namespace := lit "shigma/koishi" |} (lit "fix-tags")
          (lit "https://gitlab.com/koishijs/koishi/-/merge_requests/7")
          (lit "Show tag pushes")))
  = Return (Some (lit "[GitLab] Pull Request Opened (koishijs/koishi#7)
koishijs/koishi/master <- shigma/koishi/fix-tags
User: shigma
URL: https://gitlab.com/koishijs/koishi/-/merge_requests/7
Show tag pushes")).
Proof. reflexivity. Qed.

Example note_on_snippet_suppressed :
  note_handler (sample_note "Snippet" "Nice.") = Return None.
Proof. reflexivity. Qed.

Example note_on_merge_request_without_one :
  note_handler (sample_note "MergeRequest" "Nice.") = Throw TypeError.
Proof. reflexivity. Qed.

(** ** Strings and lines *)

Lemma split_nonempty (sep : N) (s : jsstring) : split sep s ≠ [].
Proof.
  destruct s as [|c s]; simpl; [done|].
  destruct (c =? sep)%N; [done|]. by destruct (split sep s).
Qed.

Lemma split_cons_ne (sep c : N) (s : jsstring) :
  c ≠ sep →
  split sep (c :: s) = (c :: hd [] (split sep s)) :: tl (split sep s).
Proof.
  intros Hc. simpl. apply N.eqb_neq in Hc. rewrite Hc.
  pose proof (split_nonempty sep s). by destruct (split sep s).
Qed.

(** Cutting at a separator: the pieces on either side do not mix. *)
Lemma split_app_sep (sep : N) (a b : jsstring) :
  split sep (a ++ sep :: b) = split sep a ++ split sep b.
Proof.
  induction a as [|c a IH].
  - simpl. by rewrite N.eqb_refl.
  - destruct (decide (c = sep)) as [->|Hc].
    + simpl. rewrite N.eqb_refl. by rewrite IH.
    + rewrite <- app_comm_cons, !split_cons_ne by done. rewrite IH.
      pose proof (split_nonempty sep a). by destruct (split sep a).
Qed.

Lemma split_free (sep : N) (s : jsstring) : sep ∉ s → split sep s = [s].
Proof.
  induction s as [|c s IH]; intros Hs; [done|].
  apply not_elem_of_cons in Hs as [Hc Hs].
  rewrite split_cons_ne by done. by rewrite IH.
Qed.

(** The lines of a joined text are the lines of its parts, in order. *)
Lemma split_join (parts : list jsstring) :
  parts ≠ [] → split nl (join LF parts) = concat (map (split nl) parts).
Proof.
  induction parts as [|p [|q rest] IH]; intros Hne; [done| |].
  - simpl. by rewrite app_nil_r.
  - change (join LF (p :: q :: rest)) with (p ++ nl :: join LF (q :: rest)).
    rewrite split_app_sep, IH by done. reflexivity.
Qed.

Lemma split_join_free (parts : list jsstring) :
  parts ≠ [] → Forall (λ p, nl ∉ p) parts → split nl (join LF parts) = parts.
Proof.
  intros Hne Hfree. rewrite split_join by done. clear Hne.
  induction Hfree as [|p parts Hp _ IH]; [done|].
  simpl. rewrite split_free by done. by rewrite IH.
Qed.

(** ** The regular expressions *)

Lemma zeros_to_end_spec (s : jsstring) :
  zeros_to_end s = true ↔ Forall (λ c, c = zero_digit) s.
Proof.
  induction s as [|c s IH]; simpl.
  - split; [constructor|done].
  - rewrite andb_true_iff, N.eqb_eq, IH, Forall_cons. done.
Qed.

Lemma test_zero_hash_spec (s : jsstring) : test_zero_hash s = true ↔ zero_hash s.
Proof.
  unfold zero_hash. destruct s as [|c s]; simpl.
  - split; [done|]. by intros [? _].
  - rewrite andb_true_iff, N.eqb_eq, zeros_to_end_spec, Forall_cons.
    split; [by intros [-> ?]|by intros [_ ?]].
Qed.

Lemma test_zero_hash_false (s : jsstring) : ¬ zero_hash s → test_zero_hash s = false.
Proof.
  intros H. destruct (test_zero_hash s) eqn:E; [|done].
  by apply test_zero_hash_spec in E.
Qed.

Lemma skip_blank_length (s r : jsstring) :
  skip_blank s = Some r → (length r < length s)%nat.
Proof.
  revert r. induction s as [|c s IH]; intros r; simpl; [done|].
  destruct (is_space c); [|done].
  destruct (skip_blank s) as [r'|] eqn:E.
  - intros [= <-]. specialize (IH r' eq_refl). lia.
  - destruct (c =? nl)%N; [|done]. intros [= <-]. lia.
Qed.

Lemma match_blank_run_length (s r : jsstring) :
  match_blank_run s = Some r → (length r < length s)%nat.
Proof.
  destruct s as [|c s]; simpl; [done|].
  destruct (c =? nl)%N; [|done].
  intros H%skip_blank_length. lia.
Qed.

Lemma collapse_match (c : N) (s r : jsstring) :
  match_blank_run (c :: s) = Some r → collapse (c :: s) = nl :: collapse r.
Proof.
  intros Hr. simp collapse.
  destruct (inspect (match_blank_run (c :: s))) as [[r'|] H]; simpl; congruence.
Qed.

Lemma collapse_copy (c : N) (s : jsstring) :
  match_blank_run (c :: s) = None → collapse (c :: s) = c :: collapse s.
Proof.
  intros Hr. simp collapse.
  destruct (inspect (match_blank_run (c :: s))) as [[r'|] H]; simpl; congruence.
Qed.

Lemma collapse_cons (c : N) (s : jsstring) :
  collapse (c :: s) =
  match match_blank_run (c :: s) with
  | Some r => nl :: collapse r
  | None => c :: collapse s
  end.
Proof.
  destruct (match_blank_run (c :: s)) as [r|] eqn:E.
  - by apply collapse_match.
  - by apply collapse_copy.
Qed.

Lemma collapse_cons_other (c : N) (s : jsstring) :
  c ≠ nl → collapse (c :: s) = c :: collapse s.
Proof.
  intros Hc. rewrite collapse_cons. simpl.
  apply N.eqb_neq in Hc. by rewrite Hc.
Qed.

Lemma collapse_cons_nl (s : jsstring) :
  collapse (nl :: s) = nl :: collapse (default s (skip_blank s)).
Proof. rewrite collapse_cons. simpl. by destruct (skip_blank s). Qed.

Lemma is_space_nl : is_space nl = true.
Proof. reflexivity. Qed.

Lemma not_space_not_nl (c : N) : is_space c = false → c ≠ nl.
Proof. intros H ->. by rewrite is_space_nl in H. Qed.

(** What [\s*\n] leaves behind does not itself start with a blank line:
    the star was greedy. *)
Lemma skip_blank_greedy (s r : jsstring) :
  skip_blank s = Some r → skip_blank r = None.
Proof.
  revert r. induction s as [|c s IH]; intros r; simpl; [done|].
  destruct (is_space c); [|done].
  destruct (skip_blank s) as [r'|] eqn:E.
  - intros [= <-]. by apply IH.
  - destruct (c =? nl)%N; [|done]. by intros [= <-].
Qed.

Lemma skip_blank_suffix (s r : jsstring) :
  skip_blank s = Some r → ∃ w, s = w ++ nl :: r ∧ blank w.
Proof.
  revert r. induction s as [|c s IH]; intros r; simpl; [done|].
  destruct (is_space c) eqn:Hc; [|done].
  destruct (skip_blank s) as [r'|] eqn:E.
  - intros [= <-]. destruct (IH r' eq_refl) as (w & -> & Hw).
    exists (c :: w). split; [done|]. by constructor.
  - destruct (c =? nl)%N eqn:Hn; [|done]. intros [= <-].
    apply N.eqb_eq in Hn as ->. exists []. split; [done|constructor].
Qed.

Lemma skip_blank_app (w v : jsstring) :
  blank w → skip_blank (w ++ nl :: v) = Some (default v (skip_blank v)).
Proof.
  induction 1 as [|c w Hc _ IH]; simpl.
  - by destruct (skip_blank v).
  - by rewrite Hc, IH.
Qed.

Lemma skip_blank_None (v : jsstring) : skip_blank v = None ↔ ¬ opens_blank v.
Proof.
  split.
  - intros H (w & v' & -> & Hw). by rewrite skip_blank_app in H.
  - intros H. destruct (skip_blank v) as [r|] eqn:E; [|done].
    destruct H. apply skip_blank_suffix in E as (w & -> & Hw). by exists w, r.
Qed.

(** A scan that stops on something else than white space does not look
    at what comes after. *)
Lemma skip_blank_app_r (s t : jsstring) :
  ¬ blank s → skip_blank (s ++ t) = (.++ t) <$> skip_blank s.
Proof.
  induction s as [|c s IH]; intros Hs; simpl.
  - destruct Hs. constructor.
  - destruct (is_space c) eqn:Hc; [|done].
    rewrite IH by (intros Hb; apply Hs; by constructor).
    destruct (skip_blank s); simpl; [done|]. by destruct (c =? nl)%N.
Qed.

(** Collapsing does not bring a newline to the front of white space. *)
Lemma skip_blank_collapse (s : jsstring) :
  skip_blank s = None → skip_blank (collapse s) = None.
Proof.
  induction s as [|c s IH]; [done|]. simpl.
  destruct (is_space c) eqn:Hc.
  - destruct (skip_blank s) eqn:E; [done|].
    destruct (c =? nl)%N eqn:Hn; [done|]. intros _.
    apply N.eqb_neq in Hn. rewrite collapse_cons_other by done.
    simpl. by rewrite Hc, IH, (proj2 (N.eqb_neq _ _) Hn).
  - intros _. rewrite collapse_cons_other by by apply not_space_not_nl.
    simpl. by rewrite Hc.
Qed.

(** No newline of a collapsed text is followed by a blank line. *)
Lemma match_blank_run_greedy (s r : jsstring) :
  match_blank_run s = Some r → skip_blank r = None.
Proof.
  destruct s as [|c s]; simpl; [done|].
  destruct (c =? nl)%N; [|done]. apply skip_blank_greedy.
Qed.

Lemma collapse_no_run (s u t : jsstring) :
  collapse s = u ++ nl :: t → skip_blank t = None.
Proof.
  revert u. induction s as [s IH] using (induction_ltof1 _ (@length N)).
  unfold ltof in IH. intros u.
  destruct s as [|c s]; [by destruct u|].
  rewrite collapse_cons. destruct (match_blank_run (c :: s)) as [r|] eqn:E.
  - destruct u as [|c' u]; simpl; intros Hx; simplify_eq.
    + apply skip_blank_collapse. by eapply match_blank_run_greedy.
    + eapply (IH r); [by apply match_blank_run_length|done].
  - destruct u as [|c' u]; simpl; intros Hx; simplify_eq.
    + simpl in E. by apply skip_blank_collapse.
    + eapply (IH s); [simpl; lia|done].
Qed.

(** The text [replace] gives back has no blank-line run left. *)
Lemma collapse_blank_run_free (s : jsstring) : ¬ has_blank_run (collapse s).
Proof.
  intros (u & x & v & Hs & w & -> & Hw).
  simpl in Hs. rewrite <- app_assoc in Hs. simpl in Hs.
  apply collapse_no_run in Hs. by rewrite skip_blank_app in Hs.
Qed.

Lemma closes_blank_cons (c : N) (u : jsstring) :
  closes_blank u → closes_blank (c :: u).
Proof. intros (u' & w & -> & Hw). by exists (c :: u'), w. Qed.

(** Text that does not end in the middle of a run is collapsed on its own. *)
Lemma collapse_app (u t : jsstring) :
  ¬ closes_blank u → collapse (u ++ t) = collapse u ++ collapse t.
Proof.
  induction u as [u IH] using (induction_ltof1 _ (@length N)).
  unfold ltof in IH. intros Hu.
  destruct u as [|c u]; [done|].
  destruct (decide (c = nl)) as [->|Hc].
  - assert (¬ blank u) as Hb by (intros Hb; apply Hu; by exists [], u).
    rewrite <- app_comm_cons, !collapse_cons_nl, skip_blank_app_r by done.
    destruct (skip_blank u) as [r|] eqn:E; simpl.
    + f_equal. apply IH; [apply skip_blank_length in E; simpl; lia|].
      intros (u' & w & -> & Hw). apply Hu.
      apply skip_blank_suffix in E as (w0 & -> & _).
      exists (nl :: w0 ++ nl :: u'), w. split; [|done].
      simpl. by rewrite <- app_assoc.
    + f_equal. apply IH; [simpl; lia|].
      intros H. by apply Hu, closes_blank_cons.
  - rewrite <- app_comm_cons, !collapse_cons_other by done. simpl. f_equal.
    apply IH; [simpl; lia|]. intros H. by apply Hu, closes_blank_cons.
Qed.

(** A run as long as it can be is replaced by one newline, and the text on
    either side is collapsed on its own. *)
Lemma collapse_run (u x v : jsstring) :
  blank_run x → ¬ closes_blank u → ¬ opens_blank v →
  collapse (u ++ x ++ v) = collapse u ++ nl :: collapse v.
Proof.
  intros (w & -> & Hw) Hu Hv. rewrite collapse_app by done. f_equal.
  simpl. rewrite <- app_assoc. simpl.
  rewrite collapse_cons_nl, skip_blank_app by done.
  by rewrite (proj2 (skip_blank_None v) Hv).
Qed.

(** Text without a run is left as it is. *)
Lemma collapse_id (s : jsstring) : ¬ has_blank_run s → collapse s = s.
Proof.
  induction s as [|c s IH]; intros Hs; [done|].
  assert (collapse s = s) as Hrec.
  { apply IH. intros (u & x & v & -> & Hx). apply Hs. by exists (c :: u), x, v. }
  destruct (decide (c = nl)) as [->|Hc].
  - rewrite collapse_cons_nl. destruct (skip_blank s) as [r|] eqn:E; simpl.
    + destruct Hs. apply skip_blank_suffix in E as (w & -> & Hw).
      exists [], (nl :: w ++ [nl]), r. split.
      * simpl. by rewrite <- app_assoc.
      * by exists w.
    + by rewrite Hrec.
  - by rewrite collapse_cons_other, Hrec.
Qed.

(** ** The router *)

Section router_facts.

Context (sender : list call → Z → jsstring → option exn).

Lemma accepted_cons (message : jsstring) (id : Z) (groups : list Z) (log : list call) :
  accepted sender log message (id :: groups)
  ↔ sender log id message = None
    ∧ accepted sender (log ++ [Call id message]) message groups.
Proof.
  split.
  - intros Hacc. split.
    + rewrite <- (app_nil_r log). by apply (Hacc [] id groups).
    + intros before id' after ->. rewrite <- app_assoc.
      by apply (Hacc (id :: before) id' after).
  - intros [Hid Hacc] [|id0 before] id' after; simpl.
    + intros [= <- _]. by rewrite app_nil_r.
    + intros [= <- ->]. specialize (Hacc before id' after eq_refl).
      by rewrite <- app_assoc in Hacc.
Qed.

(** The loop is run by the dispatcher: it asks every group when each
    request is accepted, and stops at the first request that is rejected. *)
Lemma for_of_send_run (message : jsstring) (groups : list Z) (log : list call) :
  accepted sender log message groups
  ∧ for_of groups (λ id, sendGroupMsgAsync sender id message) log
    = (log ++ map (λ id, Call id message) groups, Return ())
  ∨ ∃ before id after e,
      groups = before ++ id :: after
      ∧ accepted sender log message before
      ∧ sender (log ++ map (λ id, Call id message) before) id message = Some e
      ∧ for_of groups (λ id, sendGroupMsgAsync sender id message) log
        = (log ++ map (λ id, Call id message) (before ++ [id]), Throw e).
Proof.
  revert log. induction groups as [|id groups IH]; intros log.
  - left. split; [by intros [|??] ???|]. simpl. by rewrite app_nil_r.
  - simpl. unfold mbind, async_bind, sendGroupMsgAsync at 1 3.
    destruct (sender log id message) as [e|] eqn:Hid.
    + right. exists [], id, groups, e. simpl. rewrite app_nil_r.
      split; [done|]. split; [by intros [|??] ???|]. done.
    + destruct (IH (log ++ [Call id message])) as [[Hacc Hall] | Hrej].
      * left. split; [by apply accepted_cons|]. rewrite Hall. by rewrite <- app_assoc.
      * right. destruct Hrej as (before & id' & after & e & -> & Hacc & He & Hout).
        exists (id :: before), id', after, e. simpl.
        rewrite <- app_assoc in He, Hout. simpl in He, Hout.
        split; [done|]. split; [by apply accepted_cons|]. split; [done|].
        by rewrite Hout.
Qed.

(** The loop up to a rejected request: the rejection leaves the loop,
    and the groups after it are not asked. *)
Lemma for_of_send_stops (message : jsstring) (before after : list Z)
    (id : Z) (e : exn) (log : list call) :
  accepted sender log message before →
  sender (log ++ map (λ id, Call id message) before) id message = Some e →
  for_of (before ++ id :: after) (λ id, sendGroupMsgAsync sender id message) log
  = (log ++ map (λ id, Call id message) (before ++ [id]), Throw e).
Proof.
  revert log. induction before as [|id' before IH]; intros log Hacc He; simpl in *.
  - unfold mbind, async_bind, sendGroupMsgAsync at 1.
    rewrite app_nil_r in He. by rewrite He.
  - apply accepted_cons in Hacc as [Hid Hacc].
    unfold mbind, async_bind, sendGroupMsgAsync at 1. rewrite Hid.
    rewrite IH.
    + by rewrite <- app_assoc.
    + done.
    + by rewrite <- app_assoc.
Qed.

Context (options : gmap jsstring (list Z)).
Context {T : Type} `{RepositoryPayload T}.

(** [options[key]] for a key the plugin maps. *)
Lemma property_of_own (key : jsstring) (groups : list Z) :
  options !! key = Some groups → property_of options key = Some (Groups groups).
Proof. intros Hkey. unfold property_of. by rewrite Hkey. Qed.

(** [if (!groups) return]. *)
Lemma wrapHandler_unmapped (handler : T → reply) (event : EventData T) (log : list call) :
  options !! path_with_namespace (project (payload event)) = None →
  path_with_namespace (project (payload event)) ∉ Object_prototype →
  wrapHandler sender options handler event log = (log, Return ()).
Proof.
  intros Hnone Hname. unfold wrapHandler, property_of.
  by rewrite Hnone, bool_decide_eq_false_2.
Qed.

(** [if (!message) return]. *)
Lemma wrapHandler_falsy (handler : T → reply) (event : EventData T) (log : list call) :
  handler (payload event) = Return None ∨ handler (payload event) = Return (Some []) →
  wrapHandler sender options handler event log = (log, Return ()).
Proof.
  intros Hfalsy. unfold wrapHandler.
  destruct (property_of options _) as [groups|]; [|done].
  unfold mbind, async_bind, await. by destruct Hfalsy as [-> | ->].
Qed.

(** Past both guards the router is the loop over the groups. *)
Lemma wrapHandler_truthy (handler : T → reply) (event : EventData T)
    (groups : list Z) (message : jsstring) (log : list call) :
  options !! path_with_namespace (project (payload event)) = Some groups →
  handler (payload event) = Return (Some message) →
  message ≠ [] →
  wrapHandler sender options handler event log
  = for_of groups (λ id, sendGroupMsgAsync sender id message) log.
Proof.
  intros Hgroups Hmessage Hne. unfold wrapHandler.
  rewrite (property_of_own _ _ Hgroups).
  unfold mbind at 1, async_bind at 1, await. rewrite Hmessage.
  by destruct message.
Qed.

(** Past both guards with an inherited member: the loop cannot start. *)
Lemma wrapHandler_member (handler : T → reply) (event : EventData T)
    (message : jsstring) (log : list call) :
  options !! path_with_namespace (project (payload event)) = None →
  path_with_namespace (project (payload event)) ∈ Object_prototype →
  handler (payload event) = Return (Some message) →
  message ≠ [] →
  wrapHandler sender options handler event log = (log, Throw TypeError).
Proof.
  intros Hnone Hname Hmessage Hne. unfold wrapHandler, property_of.
  rewrite Hnone, bool_decide_eq_true_2 by done.
  unfold mbind, async_bind, await. rewrite Hmessage. by destruct message.
Qed.

End router_facts.

(** C1, on the code. An event whose project path has no entry in the
    plugin's options is dropped, with no request and a fulfilled promise,
    unless the path is a name under which every object inherits a member:
    for a tag pushed to a project named [constructor] the lookup finds the
    inherited member, the guard lets it through, and the loop over it
    throws. No request is made, and the router's promise is rejected. *)
Theorem inherited_name_not_dropped :
  sample_options !! path_with_namespace (project (payload (sample_tag "constructor"))) = None
  ∧ wrapHandler accepting sample_options tag_push_handler (sample_tag "constructor") []
    = ([], Throw TypeError)
  ∧ ∀ {T} `{RepositoryPayload T} sender options (handler : T → reply)
      (event : EventData T) log,
      options !! path_with_namespace (project (payload event)) = None →
      path_with_namespace (project (payload event)) ∉ Object_prototype →
      wrapHandler sender options handler event log = (log, Return ()).
Proof.
  split; [by vm_compute|]. split; [by vm_compute|].
  intros T HT sender options handler event log. apply wrapHandler_unmapped.
Qed.

(** C10. When the handler gives back [undefined] or the empty string, the
    router makes no delivery request: [!message] holds for both, and the
    router does for the empty string what it does for no message at all. *)
Theorem falsy_message_not_sent {T} `{RepositoryPayload T}
    (sender : list call → Z → jsstring → option exn)
    (options : gmap jsstring (list Z))
    (handler : T → reply) (event : EventData T) (log : list call) :
  handler (payload event) = Return None ∨ handler (payload event) = Return (Some []) →
  wrapHandler sender options handler event log = (log, Return ())
  ∧ wrapHandler sender options handler event log
    = wrapHandler sender options (λ _, Return None) event log.
Proof.
  intros Hfalsy.
  assert (wrapHandler sender options handler event log = (log, Return ())) as ->
    by by apply wrapHandler_falsy.
  split; [done|]. symmetry. apply wrapHandler_falsy. by left.
Qed.

Lemma falsy_message_not_sent_witness :
  wrapHandler accepting sample_options (λ _ : TagPushEvent.t, Return (Some []))
    (sample_tag "koishijs/koishi") []
  = ([], Return ()).
Proof. apply (falsy_message_not_sent accepting sample_options). right. reflexivity. Defined.

(** C2, as stated, fails, in two ways: when the request for the second of
    three groups is rejected, the third group is not asked at all; and a
    group that the options list twice is asked twice. *)
Lemma once_per_group_fails :
  ¬ once_per_group (rejecting 10002) sample_options tag_push_handler
      (sample_tag "koishijs/koishi")
  ∧ ¬ once_per_group accepting twice_options tag_push_handler
        (sample_tag "koishijs/koishi").
Proof.
  split; intros Hclaim.
  - specialize (Hclaim [10001; 10002; 10003]%Z
                  (lit "[GitLab] koishijs/koishi published tag v1.0.0")).
    assert (10003%Z ∈ [10001; 10002; 10003]%Z) as Hin by set_solver.
    apply Hclaim in Hin; [|by vm_compute|reflexivity|discriminate].
    vm_compute in Hin. discriminate.
  - specialize (Hclaim [10001; 10002; 10001]%Z
                  (lit "[GitLab] koishijs/koishi published tag v1.0.0")).
    assert (10001%Z ∈ [10001; 10002; 10001]%Z) as Hin by set_solver.
    apply Hclaim in Hin; [|by vm_compute|reflexivity|discriminate].
    vm_compute in Hin. discriminate.
Qed.

(** C2, amended. For an event whose project is mapped and whose handler
    gives a message, the router asks the entries of the project's group
    list for that message one after the other, in the order of the list,
    one request per entry: every entry when the dispatcher accepts each
    request, and otherwise the entries up to and including the first whose
    request is rejected, and no entry after it. *)
Theorem requests_follow_group_list {T} `{RepositoryPayload T}
    (sender : list call → Z → jsstring → option exn)
    (options : gmap jsstring (list Z))
    (handler : T → reply) (event : EventData T) (log : list call)
    (groups : list Z) (message : jsstring) :
  options !! path_with_namespace (project (payload event)) = Some groups →
  handler (payload event) = Return (Some message) →
  message ≠ [] →
  let out := wrapHandler sender options handler event log in
  (accepted sender log message groups
   ∧ out = (log ++ map (λ id, Call id message) groups, Return ())
   ∨ ∃ before id after e,
       groups = before ++ id :: after
       ∧ accepted sender log message before
       ∧ sender (log ++ map (λ id, Call id message) before) id message = Some e
       ∧ out = (log ++ map (λ id, Call id message) (before ++ [id]), Throw e))
  ∧ (accepted sender log message groups →
     out = (log ++ map (λ id, Call id message) groups, Return ())).
Proof.
  intros Hgroups Hmessage Hne out. subst out.
  rewrite (wrapHandler_truthy _ _ _ _ groups message) by done.
  destruct (for_of_send_run sender message groups log)
    as [[Hacc ->] | (before & id & after & e & -> & Hacc & He & ->)].
  - split; [by left|done].
  - split; [right; by exists before, id, after, e|].
    intros Hall. by rewrite (Hall before id after) in He.
Qed.

Lemma requests_follow_group_list_witness :
  wrapHandler accepting twice_options tag_push_handler (sample_tag "koishijs/koishi") []
  = ([] ++ map (λ id, Call id (lit "[GitLab] koishijs/koishi published tag v1.0.0"))
             [10001; 10002; 10001]%Z,
     Return ()).
Proof.
  apply (requests_follow_group_list accepting twice_options tag_push_handler
           (sample_tag "koishijs/koishi") [] [10001; 10002; 10001]%Z
           (lit "[GitLab] koishijs/koishi published tag v1.0.0")).
  - by vm_compute.
  - reflexivity.
  - discriminate.
  - intros before id after _. reflexivity.
Defined.

(** C3, as stated, fails: when the request for the first of three groups is
    rejected, the two other groups are never asked and the router's promise
    is rejected. *)
Lemma requests_not_independent :
  ¬ requests_independent (rejecting 10001) sample_options tag_push_handler
      (sample_tag "koishijs/koishi").
Proof.
  intros Hclaim.
  destruct (Hclaim [10001; 10002; 10003]%Z
              (lit "[GitLab] koishijs/koishi published tag v1.0.0")) as [_ Hres].
  - vm_compute. reflexivity.
  - reflexivity.
  - discriminate.
  - vm_compute in Hres. discriminate.
Qed.

(** The run behind it: one request, for the first group, and a rejected
    promise. *)
Example rejected_first_request :
  wrapHandler (rejecting 10001) sample_options tag_push_handler
    (sample_tag "koishijs/koishi") []
  = ([Call 10001 (lit "[GitLab] koishijs/koishi published tag v1.0.0")],
     Throw (DeliveryError 100)).
Proof. vm_compute. reflexivity. Qed.

(** C3, amended. The requests are made one after the other, each awaited
    before the next: at the first request that the dispatcher rejects, the
    groups before it have been asked, the groups after it are not asked,
    and the router's promise is rejected with that error. *)
Theorem rejection_stops_delivery {T} `{RepositoryPayload T}
    (sender : list call → Z → jsstring → option exn)
    (options : gmap jsstring (list Z))
    (handler : T → reply) (event : EventData T) (log : list call)
    (before after : list Z) (id : Z) (e : exn) (message : jsstring) :
  options !! path_with_namespace (project (payload event))
    = Some (before ++ id :: after) →
  handler (payload event) = Return (Some message) →
  message ≠ [] →
  accepted sender log message before →
  sender (log ++ map (λ id, Call id message) before) id message = Some e →
  wrapHandler sender options handler event log
  = (log ++ map (λ id, Call id message) (before ++ [id]), Throw e).
Proof.
  intros Hgroups Hmessage Hne Hacc He.
  rewrite (wrapHandler_truthy _ _ _ _ (before ++ id :: after) message) by done.
  by apply for_of_send_stops.
Qed.

Lemma rejection_stops_delivery_witness :
  wrapHandler (breaking_after 2) twice_options tag_push_handler
    (sample_tag "koishijs/koishi") []
  = ([] ++ map (λ id, Call id (lit "[GitLab] koishijs/koishi published tag v1.0.0"))
             ([10001; 10002] ++ [10001])%Z,
     Throw (DeliveryError 100)).
Proof.
  apply (rejection_stops_delivery (breaking_after 2) twice_options tag_push_handler
           (sample_tag "koishijs/koishi") [] [10001; 10002]%Z [] 10001%Z).
  - by vm_compute.
  - reflexivity.
  - discriminate.
  - apply accepted_cons. split; [reflexivity|].
    apply accepted_cons. split; [reflexivity|].
    intros [|??] ???; discriminate.
  - reflexivity.
Defined.

(** C4. A push whose [after] is made of zeros only gets no message, and
    the router makes no delivery request for it. *)
Theorem zero_hash_push_suppressed (e : PushEvent.t)
    (sender : list call → Z → jsstring → option exn)
    (options : gmap jsstring (list Z)) (log : list call) :
  zero_hash (PushEvent.after e) →
  push_handler e = Return None
  ∧ wrapHandler sender options push_handler {| payload := e |} log = (log, Return ()).
Proof.
  intros Hzero. apply test_zero_hash_spec in Hzero.
  assert (push_handler e = Return None) as Hnone.
  { unfold push_handler. by rewrite Hzero. }
  split; [done|]. apply wrapHandler_falsy. by left.
Qed.

Lemma zero_hash_push_suppressed_witness :
  push_handler (sample_push "0000000000000000000000000000000000000000" ["drop branch"%string])
    = Return None
  ∧ wrapHandler accepting sample_options push_handler
      {| payload := sample_push "0000000000000000000000000000000000000000" ["drop branch"%string] |}
      []
    = ([], Return ()).
Proof.
  apply zero_hash_push_suppressed.
  apply test_zero_hash_spec. reflexivity.
Defined.

(** ** The formatters *)

(** C5, as stated, fails: a commit message with a subject, a blank line and
    a body keeps a newline once collapsed, so that one commit shows on two
    lines. *)
Lemma push_line_count_fails :
  ¬ push_line_count (sample_push "8d0a3b5c11f04be2a0ac1e0b9a3c1d2e4f5a6b7c"
      ["fix: route by project path

keep the order of the groups"%string]).
Proof.
  intros Hclaim. destruct Hclaim as (out & Hout & Hlen).
  - intros Hzero%test_zero_hash_spec. discriminate.
  - vm_compute in Hout. injection Hout as <-. vm_compute in Hlen. discriminate.
Qed.

(** C5, amended. For a push whose [after] is not made of zeros only, the
    message is three header strings and one collapsed message per commit,
    joined by newlines. Its lines are the lines of these strings: exactly
    three header lines and one line per commit when none of the strings
    holds a newline. No collapsed message has a blank-line run left. *)
Theorem push_message_lines (e : PushEvent.t) :
  ¬ zero_hash (PushEvent.after e) →
  let parts :=
    [ lit "[GitLab] Push (" ++ path_with_namespace (PushEvent.project e) ++ lit ")";
      lit "Ref: " ++ PushEvent.ref e;
      lit "User: " ++ PushEvent.user_name e ]
    ++ map (λ c, collapse (message c)) (PushEvent.commits e) in
  push_handler e = Return (Some (join LF parts))
  ∧ length parts = (3 + length (PushEvent.commits e))%nat
  ∧ split nl (join LF parts) = concat (map (split nl) parts)
  ∧ (Forall (λ p, nl ∉ p) parts → split nl (join LF parts) = parts)
  ∧ Forall (λ c, ¬ has_blank_run (collapse (message c))) (PushEvent.commits e).
Proof.
  intros Hzero parts. apply test_zero_hash_false in Hzero.
  split; [|split; [|split; [|split]]].
  - unfold push_handler. by rewrite Hzero.
  - subst parts. simpl. by rewrite length_map.
  - by apply split_join.
  - by apply split_join_free.
  - apply Forall_forall. intros c _. apply collapse_blank_run_free.
Qed.

Lemma push_message_lines_witness :
  push_handler (sample_push "8d0a3b5c11f04be2a0ac1e0b9a3c1d2e4f5a6b7c"
                  ["fix: typo"%string; "feat: tags"%string])
  = Return (Some (lit "[GitLab] Push (koishijs/koishi)
Ref: refs/heads/master
User: shigma
fix: typo
feat: tags")).
Proof.
  apply (push_message_lines (sample_push "8d0a3b5c11f04be2a0ac1e0b9a3c1d2e4f5a6b7c"
                               ["fix: typo"%string; "feat: tags"%string])).
  intros Hzero%test_zero_hash_spec. discriminate.
Defined.

(** C6. A tag push always gets a message, never an empty one; the tag
    shown is the ref without its first ten code units (all of it gone when
    it has ten or fewer), so that [refs/tags/v1.0.0] shows as [v1.0.0]. *)
Theorem tag_push_message (e : TagPushEvent.t) :
  (∃ prefix tag,
     TagPushEvent.ref e = prefix ++ tag
     ∧ length prefix = (10 `min` length (TagPushEvent.ref e))%nat
     ∧ tag = drop 10 (TagPushEvent.ref e)
     ∧ tag_push_handler e
       = Return (Some (lit "[GitLab] " ++ path_with_namespace (TagPushEvent.project e)
                       ++ lit " published tag " ++ tag)))
  ∧ (∃ message, tag_push_handler e = Return (Some message) ∧ message ≠ [])
  ∧ tag_push_handler (TagPushEvent.mk (TagPushEvent.project e) (lit "refs/tags/v1.0.0"))
    = Return (Some (lit "[GitLab] " ++ path_with_namespace (TagPushEvent.project e)
                    ++ lit " published tag " ++ lit "v1.0.0")).
Proof.
  split; [|split].
  - exists (take 10 (TagPushEvent.ref e)), (drop 10 (TagPushEvent.ref e)).
    split; [by rewrite take_drop|]. split; [apply length_take|]. done.
  - eexists. split; [reflexivity|]. discriminate.
  - reflexivity.
Qed.

(** C7, as stated, fails: a description of three lines gives a message of
    seven. *)
Lemma issue_five_lines_fails :
  ¬ issue_five_lines (sample_issue "open" "Steps:
1. push a tag
2. nothing shows up").
Proof.
  intros Hclaim. destruct Hclaim as (out & Hout & Hlen); [reflexivity|].
  vm_compute in Hout. injection Hout as <-. vm_compute in Hlen. discriminate.
Qed.

(** C7, amended. An issue event whose action is not [open] gets no message.
    One whose action is [open] gets five strings joined by newlines: the
    header, the title, the author, the URL and the collapsed description.
    The lines of the message are the lines of these strings: exactly five
    when none of them holds a newline. *)
Theorem issue_message (e : IssueEvent.t) :
  let a := IssueEvent.object_attributes e in
  (IssueEvent.action a ≠ lit "open" → issue_handler e = Return None)
  ∧ (IssueEvent.action a = lit "open" →
     let parts :=
       [ lit "[GitLab] Issue Opened (" ++ path_with_namespace (IssueEvent.project e)
           ++ lit "#" ++ number_to_string (IssueEvent.iid a) ++ lit ")";
         lit "Title: " ++ IssueEvent.title a;
         lit "User: " ++ name (IssueEvent.user e);
         lit "URL: " ++ IssueEvent.url a;
         collapse (IssueEvent.description a) ] in
     issue_handler e = Return (Some (join LF parts))
     ∧ split nl (join LF parts) = concat (map (split nl) parts)
     ∧ (Forall (λ p, nl ∉ p) parts → split nl (join LF parts) = parts)
     ∧ ¬ has_blank_run (collapse (IssueEvent.description a))).
Proof.
  intros a. split.
  - intros Hother. unfold issue_handler. fold a. by rewrite decide_False.
  - intros Hopen parts. split; [|split; [|split]].
    + unfold issue_handler. fold a. by rewrite decide_True.
    + by apply split_join.
    + by apply split_join_free.
    + apply collapse_blank_run_free.
Qed.

Lemma issue_message_witness :
  issue_handler (sample_issue "close" "Fixed.") = Return None
  ∧ issue_handler (sample_issue "open" "Nothing shows up.")
    = Return (Some (lit "[GitLab] Issue Opened (koishijs/koishi#42)
Title: No message on tag push
User: shigma
URL: https://gitlab.com/koishijs/koishi/-/issues/42
Nothing shows up.")).
Proof.
  split.
  - apply (proj1 (issue_message (sample_issue "close" "Fixed."))). discriminate.
  - apply (proj2 (issue_message (sample_issue "open" "Nothing shows up."))). reflexivity.
Defined.

(** ** Free text *)

Lemma join_cons (p : jsstring) (parts : list jsstring) :
  parts ≠ [] → join LF (p :: parts) = p ++ nl :: join LF parts.
Proof. by destruct parts. Qed.

Lemma join_app (front back : list jsstring) :
  front ≠ [] → back ≠ [] →
  join LF (front ++ back) = join LF front ++ nl :: join LF back.
Proof.
  induction front as [|p [|q front] IH]; intros Hf Hb; [done| |].
  - simpl (_ ++ _). by rewrite join_cons.
  - change ((p :: q :: front) ++ back) with (p :: (q :: front) ++ back).
    rewrite !join_cons, IH by done. by rewrite <- app_assoc.
Qed.

Lemma Return_Some_inj {A : Type} (a b : A) :
  Return (Some a) = Return (Some b) → a = b.
Proof. congruence. Qed.

Lemma no_run_nil : ¬ has_blank_run [].
Proof.
  intros (u & x & v & Hs & w & -> & _). symmetry in Hs.
  apply app_eq_nil in Hs as [_ Hs]. discriminate.
Qed.

(** No run starts at a code unit where the regular expression does not
    match. *)
Lemma no_run_cons (c : N) (u t : jsstring) :
  match_blank_run (c :: u ++ t) = None →
  ¬ has_blank_run u → ¬ has_blank_run (c :: u).
Proof.
  intros Hmatch Hu (u0 & x & v & Hs & w & -> & Hw).
  destruct u0 as [|c0 u0]; simpl in Hs.
  - injection Hs as -> ->. simpl in Hmatch.
    rewrite <- !app_assoc in Hmatch. simpl in Hmatch.
    by rewrite skip_blank_app in Hmatch.
  - injection Hs as -> ->. apply Hu. exists u0, (nl :: w ++ [nl]), v.
    split; [done|]. by exists w.
Qed.

Lemma not_closes_cons (c : N) (u w v : jsstring) :
  match_blank_run (c :: u ++ (nl :: w ++ [nl]) ++ v) = None →
  ¬ closes_blank u → ¬ closes_blank (c :: u).
Proof.
  intros Hmatch Hu (u' & w' & Hs & Hw').
  destruct u' as [|c' u']; simpl in Hs.
  - injection Hs as -> ->. simpl in Hmatch. by rewrite skip_blank_app in Hmatch.
  - injection Hs as -> ->. apply Hu. by exists u', w'.
Qed.

Lemma runs_collapsed_cons (c : N) (s t : jsstring) :
  match_blank_run (c :: s) = None →
  runs_collapsed s t → runs_collapsed (c :: s) (c :: t).
Proof.
  intros Hmatch Hrun. destruct Hrun as [s Hs | u x v v' Hu Hclose Hx Hv Hrest].
  - constructor. apply (no_run_cons c s []); [by rewrite app_nil_r|done].
  - apply (runs_collapsed_first (c :: u) x v v'); try done.
    + by apply (no_run_cons c u (x ++ v)).
    + destruct Hx as (w & -> & Hw). by apply (not_closes_cons c u w v).
Qed.

Lemma collapse_runs_collapsed (s : jsstring) : runs_collapsed s (collapse s).
Proof.
  induction s as [s IH] using (induction_ltof1 _ (@length N)).
  unfold ltof in IH. destruct s as [|c s].
  - constructor. apply no_run_nil.
  - rewrite collapse_cons. destruct (match_blank_run (c :: s)) as [r|] eqn:E.
    + pose proof (match_blank_run_length _ _ E) as Hlen.
      pose proof (match_blank_run_greedy _ _ E) as Hgreedy.
      simpl in E. destruct (c =? nl)%N eqn:Hc; [|done].
      apply N.eqb_eq in Hc as ->.
      apply skip_blank_suffix in E as (w & -> & Hw).
      replace (nl :: w ++ nl :: r) with ([] ++ (nl :: w ++ [nl]) ++ r) in *
        by (simpl; by rewrite <- app_assoc).
      apply (runs_collapsed_first [] (nl :: w ++ [nl]) r (collapse r)).
      * apply no_run_nil.
      * intros (u' & w' & Hs & _). by destruct u'.
      * by exists w.
      * by apply skip_blank_None.
      * by apply IH.
    + apply runs_collapsed_cons; [done|]. apply IH. simpl. lia.
Qed.

Lemma runs_collapsed_collapse (s t : jsstring) : runs_collapsed s t → t = collapse s.
Proof.
  induction 1 as [s Hs | u x v v' Hu Hclose Hx Hv _ IH].
  - symmetry. by apply collapse_id.
  - rewrite collapse_run by done. rewrite collapse_id by done. by rewrite IH.
Qed.

(** C8, as stated, fails when the run is read with the white space around
    its newlines: the indentation after a blank line is kept. *)
Lemma issue_as_worded_fails :
  ¬ issue_as_worded (sample_issue "open" "Steps:

  1. push a tag").
Proof.
  intros Hclaim. specialize (Hclaim eq_refl).
  vm_compute in Hclaim. discriminate.
Qed.

(** C8, amended. Each formatter that shows free text shows it collapsed:
    the messages of the pushed commits, the description of an opened
    issue, the body of a comment on a commit, a merge request or an issue,
    the title of an opened merge request. Collapsing replaces each
    blank-line run, a newline, then white space with any newlines in it,
    then a newline, by one newline, and keeps everything else: the text
    between the runs and the white space before the first newline of a run
    and after its last. *)
Theorem free_text_collapsed :
  (∀ s t, runs_collapsed s t ↔ t = collapse s)
  ∧ (∀ e : PushEvent.t,
       ¬ zero_hash (PushEvent.after e) →
       push_handler e
       = Return (Some (join LF (
           [ lit "[GitLab] Push (" ++ path_with_namespace (PushEvent.project e) ++ lit ")";
             lit "Ref: " ++ PushEvent.ref e;
             lit "User: " ++ PushEvent.user_name e ]
           ++ map (λ c, collapse (message c)) (PushEvent.commits e)))))
  ∧ (∀ e : IssueEvent.t,
       let a := IssueEvent.object_attributes e in
       IssueEvent.action a = lit "open" →
       issue_handler e
       = Return (Some (join LF
           [ lit "[GitLab] Issue Opened (" ++ path_with_namespace (IssueEvent.project e)
               ++ lit "#" ++ number_to_string (IssueEvent.iid a) ++ lit ")";
             lit "Title: " ++ IssueEvent.title a;
             lit "User: " ++ name (IssueEvent.user e);
             lit "URL: " ++ IssueEvent.url a;
             collapse (IssueEvent.description a) ])))
  ∧ (∀ e : NoteEvent.t,
       let a := NoteEvent.object_attributes e in
       let tail :=
         [ lit "User: " ++ name (NoteEvent.user e);
           lit "URL: " ++ NoteEvent.url a;
           collapse (NoteEvent.note a) ] in
       (NoteEvent.noteable_type a = lit "Commit" →
        note_handler e
        = Return (Some (join LF (
            (lit "[GitLab] Commit Comment ("
               ++ path_with_namespace (NoteEvent.project e) ++ lit ")") :: tail))))
       ∧ (∀ merge_request,
            NoteEvent.noteable_type a = lit "MergeRequest" →
            NoteEvent.merge_request e = Some merge_request →
            note_handler e
            = Return (Some (join LF (
                (lit "[GitLab] Merge Request Comment ("
                   ++ path_with_namespace (NoteEvent.project e) ++ lit "#"
                   ++ number_to_string (NoteEvent.iid merge_request) ++ lit ")") :: tail))))
       ∧ (∀ issue,
            NoteEvent.noteable_type a = lit "Issue" →
            NoteEvent.issue e = Some issue →
            note_handler e
            = Return (Some (join LF (
                (lit "[GitLab] Issue Comment ("
                   ++ path_with_namespace (NoteEvent.project e) ++ lit "#"
                   ++ number_to_string (NoteEvent.iid issue) ++ lit ")") :: tail)))))
  ∧ (∀ e : MergeRequestEvent.t,
       let a := MergeRequestEvent.object_attributes e in
       MergeRequestEvent.action a = lit "open" →
       merge_request_handler e
       = Return (Some (join LF
           [ lit "[GitLab] Pull Request Opened ("
               ++ path_with_namespace (MergeRequestEvent.project e)
               ++ lit "#" ++ number_to_string (MergeRequestEvent.iid a) ++ lit ")";
             path_with_namespace (MergeRequestEvent.target a) ++ lit "/"
               ++ MergeRequestEvent.target_branch a ++ lit " <- "
               ++ path_with_namespace (MergeRequestEvent.source a) ++ lit "/"
               ++ MergeRequestEvent.source_branch a;
             lit "User: " ++ name (MergeRequestEvent.user e);
             lit "URL: " ++ MergeRequestEvent.url a;
             collapse (MergeRequestEvent.title a) ]))).
Proof.
  split; [|split; [|split; [|split]]].
  - intros s t. split; [apply runs_collapsed_collapse|].
    intros ->. apply collapse_runs_collapsed.
  - intros e Hzero. unfold push_handler. by rewrite test_zero_hash_false.
  - intros e a Hopen. unfold issue_handler. fold a. by rewrite decide_True.
  - intros e a tail. unfold note_handler. fold a. split; [|split].
    + intros Hc. by rewrite decide_True.
    + intros mr Hm Hmr. rewrite decide_False by by rewrite Hm.
      by rewrite decide_True, Hmr.
    + intros issue Hi Hissue. rewrite decide_False by by rewrite Hi.
      rewrite decide_False by by rewrite Hi.
      by rewrite decide_True, Hissue.
  - intros e a Hopen. unfold merge_request_handler. fold a. by rewrite decide_True.
Qed.

(** ** Registration *)

Section registration.

Implicit Types (r : registry) (given : option WebhookConfig)
  (options : gmap jsstring (list Z)).

(** [apply] by cases on the two guards. *)
Ltac apply_cases given r :=
  unfold apply;
  destruct (webhooks r !! key_of (spread defaultOptions given)); simpl;
  destruct (servers r !! option_port (spread defaultOptions given)); simpl.

Lemma apply_config given options r :
  (apply given options r).1.2 = spread defaultOptions given.
Proof.
  by apply_cases given r.
Qed.

(** The receiver [apply] uses: the registered one, else a new one. *)
Lemma apply_receiver given options r :
  (apply given options r).2
  = default (length (receivers r))
      (webhooks r !! key_of (spread defaultOptions given)).
Proof.
  by apply_cases given r.
Qed.

Lemma apply_webhooks given options r :
  webhooks (apply given options r).1.1
  = let key := key_of (spread defaultOptions given) in
    match webhooks r !! key with
    | Some _ => webhooks r
    | None => <[key := length (receivers r)]> (webhooks r)
    end.
Proof.
  by apply_cases given r.
Qed.

Lemma apply_servers given options r :
  servers (apply given options r).1.1
  = let port := option_port (spread defaultOptions given) in
    match servers r !! port with
    | Some _ => servers r
    | None => <[port := length (listeners r)]> (servers r)
    end.
Proof.
  by apply_cases given r.
Qed.

Lemma apply_listeners given options r :
  listeners (apply given options r).1.1
  = let port := option_port (spread defaultOptions given) in
    match servers r !! port with
    | Some _ => listeners r
    | None => listeners r ++ [((apply given options r).2, port)]
    end.
Proof.
  by apply_cases given r.
Qed.

(** A key once registered keeps its receiver. *)
Lemma apply_keeps given options r (key : jsstring) (w : nat) :
  webhooks r !! key = Some w → webhooks (apply given options r).1.1 !! key = Some w.
Proof.
  intros Hkey. rewrite apply_webhooks. simpl.
  destruct (webhooks r !! key_of _) eqn:E; [done|].
  rewrite lookup_insert_ne; [done|]. congruence.
Qed.

(** After [apply] the key of its configuration names the receiver it used. *)
Lemma apply_registers given options r :
  webhooks (apply given options r).1.1 !! key_of (spread defaultOptions given)
  = Some (apply given options r).2.
Proof.
  rewrite apply_webhooks, apply_receiver. simpl.
  destruct (webhooks r !! key_of _) eqn:E; [done|].
  by rewrite lookup_insert_eq.
Qed.

Lemma apply_all_keeps calls r (key : jsstring) (w : nat) :
  webhooks r !! key = Some w → webhooks (apply_all calls r).1 !! key = Some w.
Proof.
  revert r. induction calls as [|[given options] calls IH]; intros r Hkey; [done|].
  simpl. pose proof (apply_keeps given options r key w Hkey) as Hnext.
  destruct (apply given options r) as [[r' config] webhook]. simpl in Hnext.
  specialize (IH r' Hnext). by destruct (apply_all calls r').
Qed.

(** Registration is idempotent: a call of [apply] with a configuration
    that an earlier call had, however many calls lie between the two, is
    given the receiver of the earlier call and creates none. *)
Lemma same_config_same_receiver given options options' calls r :
  let first := apply given options r in
  let between := apply_all calls first.1.1 in
  let second := apply given options' between.1 in
  second.2 = first.2 ∧ receivers second.1.1 = receivers between.1.
Proof.
  intros first between second.
  pose proof (apply_registers given options r) as Hreg. fold first in Hreg.
  apply (apply_all_keeps calls) in Hreg. fold between in Hreg.
  split.
  - unfold second. by rewrite apply_receiver, Hreg.
  - unfold second, apply. rewrite Hreg. simpl.
    by destruct (servers between.1 !! option_port (spread defaultOptions given)).
Qed.

Lemma apply_one_server_per_port given options r :
  one_server_per_port r → one_server_per_port (apply given options r).1.1.
Proof.
  intros [Hnodup Hdom]. unfold one_server_per_port.
  rewrite apply_listeners, apply_servers. simpl.
  destruct (servers r !! option_port _) eqn:E; [done|].
  rewrite fmap_app. simpl. split.
  - apply NoDup_app. split; [done|]. split; [|apply NoDup_singleton].
    intros p Hp ->%list_elem_of_singleton.
    apply Hdom in Hp. rewrite E in Hp. by destruct Hp.
  - intros p [Hp| ->%list_elem_of_singleton]%elem_of_app.
    + destruct (decide (option_port (spread defaultOptions given) = p)) as [->|Hne].
      * by rewrite lookup_insert_eq.
      * rewrite lookup_insert_ne by done. by apply Hdom.
    + by rewrite lookup_insert_eq.
Qed.

(** No run of [apply] calls creates a second server on a port. *)
Lemma no_second_listener calls r :
  one_server_per_port r → NoDup (listeners (apply_all calls r).1).*2.
Proof.
  revert r. induction calls as [|[given options] calls IH]; intros r Hinv.
  - apply Hinv.
  - simpl. pose proof (apply_one_server_per_port given options r Hinv) as Hnext.
    destruct (apply given options r) as [[r' config] webhook]. simpl in Hnext.
    specialize (IH r' Hnext). by destruct (apply_all calls r').
Qed.

Lemma empty_one_server_per_port : one_server_per_port empty_registry.
Proof. split; [constructor|]. intros p Hp. by apply elem_of_nil in Hp. Qed.

End registration.

(** C9, on the code: two configurations that differ share a receiver when
    their path, secret and port spell the same key. An app configured with
    secret [1] and port 2140 and an app left on the defaults (no secret,
    port 12140) both have the key [/12140]: the second is given the
    receiver built with the secret of the first, and its server on port
    12140 is created on that receiver. *)
Theorem distinct_triples_share_receiver :
  let secured := Some {| port := Some 2140%Z; secret := Some (lit "1"); path := None |} in
  let first := apply secured ∅ empty_registry in
  let second := apply None ∅ first.1.1 in
  first.1.2 ≠ second.1.2
  ∧ key_of first.1.2 = key_of second.1.2
  ∧ second.2 = first.2
  ∧ receivers second.1.1 = [first.1.2]
  ∧ listeners second.1.1 = [(first.2, 2140%Z); (first.2, 12140%Z)].
Proof. vm_compute. repeat split; discriminate || reflexivity. Qed.

(** * Further properties *)

(** ** Collapsing *)

Lemma visible_blank (w : jsstring) : blank w → visible w = [].
Proof.
  unfold visible. induction 1 as [|c w Hc _ IH]; [done|].
  rewrite filter_cons_False; [done|]. by rewrite Hc.
Qed.

Lemma visible_app (a b : jsstring) : visible (a ++ b) = visible a ++ visible b.
Proof. apply filter_app. Qed.

Lemma visible_nl (s : jsstring) : visible (nl :: s) = visible s.
Proof. unfold visible. by rewrite filter_cons_False. Qed.

Lemma collapse_length_le (s : jsstring) : (length (collapse s) ≤ length s)%nat.
Proof.
  induction s as [s IH] using (induction_ltof1 _ (@length N)).
  unfold ltof in IH. destruct s as [|c s]; [done|].
  rewrite collapse_cons. destruct (match_blank_run (c :: s)) as [r|] eqn:E.
  - pose proof (match_blank_run_length _ _ E) as Hlen.
    specialize (IH r Hlen). simpl in *. lia.
  - specialize (IH s). simpl in *. lia.
Qed.

Lemma collapse_length_eq (s : jsstring) :
  length (collapse s) = length s → collapse s = s.
Proof.
  induction s as [|c s IH]; [done|].
  rewrite collapse_cons. destruct (match_blank_run (c :: s)) as [r|] eqn:E.
  - intros Heq. simpl in E. destruct (c =? nl)%N; [|done].
    apply skip_blank_length in E.
    pose proof (collapse_length_le r). simpl in *. lia.
  - simpl. intros [= Hs]. by rewrite IH.
Qed.

(** X1. The texts [replace (/\n\s*\n/g, '\n')] leaves as they are are
    those without a blank-line run. *)
Theorem collapse_fixed_points (s : jsstring) :
  collapse s = s ↔ ¬ has_blank_run s.
Proof.
  split.
  - intros Hfix Hrun. rewrite <- Hfix in Hrun. by apply collapse_blank_run_free in Hrun.
  - apply collapse_id.
Qed.

(** X2. Collapsing twice is collapsing once. *)
Theorem collapse_idempotent (s : jsstring) : collapse (collapse s) = collapse s.
Proof. apply collapse_id, collapse_blank_run_free. Qed.

(** X3. Collapsing takes away white space only: the code units that are
    not white space come out the same, in the same order. *)
Theorem collapse_keeps_visible (s : jsstring) : visible (collapse s) = visible s.
Proof.
  induction s as [s IH] using (induction_ltof1 _ (@length N)).
  unfold ltof in IH. destruct s as [|c s]; [done|].
  rewrite collapse_cons. destruct (match_blank_run (c :: s)) as [r|] eqn:E.
  - pose proof (match_blank_run_length _ _ E) as Hlen.
    simpl in E. destruct (c =? nl)%N eqn:Hc; [|done].
    apply N.eqb_eq in Hc as ->.
    apply skip_blank_suffix in E as (w & -> & Hw).
    rewrite !visible_nl, visible_app, visible_nl, (visible_blank w Hw).
    by apply IH.
  - unfold visible. rewrite !filter_cons.
    change (filter _ (collapse s)) with (visible (collapse s)).
    change (filter _ s) with (visible s).
    rewrite IH by (simpl; lia). done.
Qed.

(** X4. Collapsing never makes a text longer, and makes it shorter when
    it has a blank-line run. *)
Theorem collapse_shortens (s : jsstring) :
  (length (collapse s) ≤ length s)%nat
  ∧ (has_blank_run s → (length (collapse s) < length s)%nat).
Proof.
  split; [apply collapse_length_le|].
  intros Hrun. pose proof (collapse_length_le s) as Hle.
  destruct (decide (length (collapse s) = length s)) as [Heq|Hne]; [|lia].
  apply collapse_length_eq in Heq. rewrite <- Heq in Hrun.
  by apply collapse_blank_run_free in Hrun.
Qed.

Lemma join_split (s : jsstring) : join LF (split nl s) = s.
Proof.
  induction s as [|c s IH]; [done|].
  pose proof (split_nonempty nl s) as Hne.
  destruct (decide (c = nl)) as [->|Hc].
  - simpl split. rewrite join_cons by done. by rewrite IH.
  - rewrite split_cons_ne by done. destruct (split nl s) as [|l [|l' ls]]; [done| |].
    + simpl in *. by rewrite IH.
    + simpl in *. by rewrite IH.
Qed.

(** X5. A collapsed text has no blank line between its first line and its
    last: every line in between holds something else than white space. *)
Theorem collapse_no_blank_line (s : jsstring) (pre post : list jsstring) (line : jsstring) :
  split nl (collapse s) = pre ++ line :: post →
  pre ≠ [] → post ≠ [] →
  ¬ blank line.
Proof.
  intros Hsplit Hpre Hpost Hblank.
  apply (collapse_blank_run_free s).
  rewrite <- (join_split (collapse s)), Hsplit.
  rewrite join_app, join_cons by done.
  exists (join LF pre), (nl :: line ++ [nl]), (join LF post). split.
  - simpl. by rewrite <- app_assoc.
  - by exists line.
Qed.

Lemma collapse_no_blank_line_witness :
  ¬ blank (lit "details").
Proof.
  apply (collapse_no_blank_line (lit "fix bug

details


more") [lit "fix bug"] [lit "more"]).
  - reflexivity.
  - discriminate.
  - discriminate.
Defined.

(** ** Routing, whatever the dispatcher does *)

Section routing.

Context (sender : list call → Z → jsstring → option exn).

(** The loop ends in one of two ways: every group asked, or a rejected
    request with the groups before it asked. *)
Lemma for_of_send_cases (message : jsstring) (groups : list Z) (log : list call) :
  for_of groups (λ id, sendGroupMsgAsync sender id message) log
    = (log ++ map (λ id, Call id message) groups, Return ())
  ∨ ∃ before id after e,
      groups = before ++ id :: after
      ∧ sender (log ++ map (λ id, Call id message) before) id message = Some e
      ∧ for_of groups (λ id, sendGroupMsgAsync sender id message) log
        = (log ++ map (λ id, Call id message) (before ++ [id]), Throw e).
Proof.
  revert log. induction groups as [|id groups IH]; intros log.
  - left. simpl. by rewrite app_nil_r.
  - simpl. unfold mbind, async_bind, sendGroupMsgAsync at 1 3.
    destruct (sender log id message) as [e|] eqn:Hid.
    + right. exists [], id, groups, e. simpl. by rewrite app_nil_r.
    + destruct (IH (log ++ [Call id message])) as [Hall | Hrej].
      * left. rewrite Hall. by rewrite <- app_assoc.
      * right. destruct Hrej as (before & id' & after & e & -> & He & Hout).
        exists (id :: before), id', after, e. simpl.
        rewrite <- app_assoc in He, Hout. simpl in He, Hout. by rewrite Hout.
Qed.

Context (options : gmap jsstring (list Z)).
Context {T : Type} `{RepositoryPayload T}.

(** [await handler (...)] when the handler throws. *)
Lemma wrapHandler_throw (handler : T → reply) (event : EventData T)
    (e : exn) (log : list call) :
  handler (payload event) = Throw e →
  wrapHandler sender options handler event log
  = (log, match property_of options (path_with_namespace (project (payload event))) with
          | Some _ => Throw e
          | None => Return ()
          end).
Proof.
  intros Hthrow. unfold wrapHandler.
  destruct (property_of options _) as [groups|]; [|done].
  unfold mbind, async_bind, await. by rewrite Hthrow.
Qed.

(** The router by cases on its guards. *)
Lemma wrapHandler_cases (handler : T → reply) (event : EventData T) (log : list call) :
  wrapHandler sender options handler event log = (log, Return ())
  ∨ (∃ e, handler (payload event) = Throw e
          ∧ wrapHandler sender options handler event log = (log, Throw e))
  ∨ (∃ message,
      options !! path_with_namespace (project (payload event)) = None
      ∧ path_with_namespace (project (payload event)) ∈ Object_prototype
      ∧ handler (payload event) = Return (Some message)
      ∧ message ≠ []
      ∧ wrapHandler sender options handler event log = (log, Throw TypeError))
  ∨ ∃ groups message,
      options !! path_with_namespace (project (payload event)) = Some groups
      ∧ handler (payload event) = Return (Some message)
      ∧ message ≠ []
      ∧ wrapHandler sender options handler event log
        = for_of groups (λ id, sendGroupMsgAsync sender id message) log.
Proof.
  destruct (handler (payload event)) as [[[|c message]|]|e] eqn:Hmessage.
  - left. apply wrapHandler_falsy. by right.
  - destruct (options !! path_with_namespace (project (payload event)))
      as [groups|] eqn:Hgroups.
    + right. right. right. exists groups, (c :: message).
      repeat split; [done..|]. by apply wrapHandler_truthy.
    + destruct (decide (path_with_namespace (project (payload event)) ∈ Object_prototype))
        as [Hname|Hname].
      * right. right. left. exists (c :: message).
        repeat split; [done..|]. by apply (wrapHandler_member sender options handler event (c :: message)).
      * left. by apply wrapHandler_unmapped.
  - left. apply wrapHandler_falsy. by left.
  - rewrite (wrapHandler_throw handler event e log Hmessage).
    destruct (property_of options _); [|by left].
    right. left. by exists e.
Qed.

End routing.

(** X6. Whatever the dispatcher does, a request the router makes goes to a
    group configured for the event's project and carries the message the
    handler gave, which is not empty; the requests made before stay in
    place. *)
Theorem requests_only_configured {T} `{RepositoryPayload T}
    (sender : list call → Z → jsstring → option exn)
    (options : gmap jsstring (list Z))
    (handler : T → reply) (event : EventData T) (log : list call) :
  ∃ new,
    (wrapHandler sender options handler event log).1 = log ++ new
    ∧ ∀ c, c ∈ new →
        ∃ groups,
          options !! path_with_namespace (project (payload event)) = Some groups
          ∧ group c ∈ groups
          ∧ handler (payload event) = Return (Some (text c))
          ∧ text c ≠ [].
Proof.
  destruct (wrapHandler_cases sender options handler event log)
    as [-> | [(e & _ & ->) | [(message & _ & _ & _ & _ & ->)
         | (groups & message & Hgroups & Hmessage & Hne & ->)]]].
  - exists []. split; [by rewrite app_nil_r|]. by intros c Hc%elem_of_nil.
  - exists []. split; [by rewrite app_nil_r|]. by intros c Hc%elem_of_nil.
  - exists []. split; [by rewrite app_nil_r|]. by intros c Hc%elem_of_nil.
  - assert (∀ asked, asked ⊆ groups → ∀ c, c ∈ map (λ id, Call id message) asked →
        ∃ groups, options !! path_with_namespace (project (payload event)) = Some groups
          ∧ group c ∈ groups
          ∧ handler (payload event) = Return (Some (text c))
          ∧ text c ≠ []) as Hasked.
    { intros asked Hsub c (id & -> & Hid)%list_elem_of_fmap. exists groups.
      simpl. split; [done|]. split; [by apply Hsub|]. done. }
    destruct (for_of_send_cases sender message groups log)
      as [-> | (before & id & after & e & -> & _ & ->)].
    + eexists. split; [reflexivity|]. by apply Hasked.
    + eexists. split; [reflexivity|]. apply Hasked.
      intros x [Hx | ->%list_elem_of_singleton]%elem_of_app; set_solver.
Qed.

(** X7. For an event that is routed with a message, the outcome tells what
    was asked: when the router's promise is fulfilled, every group of the
    list has been asked; when it is rejected, the dispatcher rejected the
    last request made, and the groups after that one have not been asked. *)
Theorem outcome_tells_requests {T} `{RepositoryPayload T}
    (sender : list call → Z → jsstring → option exn)
    (options : gmap jsstring (list Z))
    (handler : T → reply) (event : EventData T) (log : list call)
    (groups : list Z) (message : jsstring) :
  options !! path_with_namespace (project (payload event)) = Some groups →
  handler (payload event) = Return (Some message) →
  message ≠ [] →
  let out := wrapHandler sender options handler event log in
  (out.2 = Return () → out.1 = log ++ map (λ id, Call id message) groups)
  ∧ (∀ e, out.2 = Throw e →
       ∃ before id after,
         groups = before ++ id :: after
         ∧ sender (log ++ map (λ id, Call id message) before) id message = Some e
         ∧ out.1 = log ++ map (λ id, Call id message) (before ++ [id])).
Proof.
  intros Hgroups Hmessage Hne out. subst out.
  rewrite (wrapHandler_truthy _ _ _ _ groups message) by done.
  destruct (for_of_send_cases sender message groups log)
    as [-> | (before & id & after & e & -> & He & ->)]; simpl.
  - split; [done|]. intros e [=].
  - split; [intros [=]|]. intros e' [= <-]. by exists before, id, after.
Qed.

Lemma outcome_tells_requests_witness :
  ∃ before id after,
    [10001; 10002; 10003]%Z = before ++ id :: after
    ∧ rejecting 10003
        ([] ++ map (λ id, Call id (lit "[GitLab] koishijs/koishi published tag v1.0.0")) before)
        id (lit "[GitLab] koishijs/koishi published tag v1.0.0")
      = Some (DeliveryError 100)
    ∧ (wrapHandler (rejecting 10003) sample_options tag_push_handler
         (sample_tag "koishijs/koishi") []).1
      = [] ++ map (λ id, Call id (lit "[GitLab] koishijs/koishi published tag v1.0.0"))
                (before ++ [id]).
Proof.
  apply (outcome_tells_requests (rejecting 10003) sample_options tag_push_handler
           (sample_tag "koishijs/koishi") [] [10001; 10002; 10003]%Z
           (lit "[GitLab] koishijs/koishi published tag v1.0.0")).
  - vm_compute. reflexivity.
  - reflexivity.
  - discriminate.
  - vm_compute. reflexivity.
Defined.



(** X9. When the handler throws, no request is made. The router's promise
    is rejected with what was thrown when [options[path]] is truthy: the
    project is mapped, even to an empty list of groups, or its path names
    an inherited member. Otherwise the handler is not run and the promise
    is fulfilled. *)
Theorem handler_throw_rejects {T} `{RepositoryPayload T}
    (sender : list call → Z → jsstring → option exn)
    (options : gmap jsstring (list Z))
    (handler : T → reply) (event : EventData T) (log : list call) (e : exn) :
  handler (payload event) = Throw e →
  wrapHandler sender options handler event log
  = (log, if decide (options !! path_with_namespace (project (payload event)) = None
                     ∧ path_with_namespace (project (payload event)) ∉ Object_prototype)
          then Return () else Throw e).
Proof.
  intros Hthrow. rewrite (wrapHandler_throw sender options handler event e log Hthrow).
  unfold property_of.
  destruct (options !! path_with_namespace (project (payload event))) as [groups|].
  - rewrite decide_False; [done|]. by intros [? _].
  - case_bool_decide as Hname.
    + rewrite decide_False; [done|]. by intros [_ ?].
    + by rewrite decide_True.
Qed.

Lemma handler_throw_rejects_witness :
  wrapHandler accepting {[ lit "koishijs/koishi" := [] ]} note_handler
    {| payload := sample_note "MergeRequest" "Looks good." |} []
  = ([], Throw TypeError).
Proof.
  rewrite (handler_throw_rejects accepting {[ lit "koishijs/koishi" := [] ]} note_handler
             {| payload := sample_note "MergeRequest" "Looks good." |} [] TypeError)
    by reflexivity.
  vm_compute. reflexivity.
Defined.

(** ** Comments and merge requests *)

(** X10. What a comment gets, by what it is on. On anything else than a
    commit, a merge request or an issue: no message. On a merge request or
    an issue that the payload does not carry: a [TypeError]. Otherwise a
    message of four joined strings: a header, the author, the URL and the
    collapsed body. *)
Theorem note_outcomes (e : NoteEvent.t) :
  let a := NoteEvent.object_attributes e in
  let type := NoteEvent.noteable_type a in
  (note_handler e = Return None
   ↔ type ≠ lit "Commit" ∧ type ≠ lit "MergeRequest" ∧ type ≠ lit "Issue")
  ∧ (∀ err, note_handler e = Throw err
      ↔ err = TypeError
        ∧ (type = lit "MergeRequest" ∧ NoteEvent.merge_request e = None
           ∨ type = lit "Issue" ∧ NoteEvent.issue e = None))
  ∧ (∀ out, note_handler e = Return (Some out) →
       ∃ header,
         out = join LF [ lit "[GitLab] " ++ header;
                         lit "User: " ++ name (NoteEvent.user e);
                         lit "URL: " ++ NoteEvent.url a;
                         collapse (NoteEvent.note a) ]).
Proof.
  intros a type. unfold note_handler. fold a. fold type.
  destruct (decide (type = lit "Commit")) as [Hc|Hc].
  { split; [|split].
    - split; [done|]. by intros [? _].
    - intros err. split; [done|]. intros [_ [[Ht _]|[Ht _]]]; by rewrite Hc in Ht.
    - intros out <-%Return_Some_inj. by eexists (lit "Commit Comment (" ++ _). }
  destruct (decide (type = lit "MergeRequest")) as [Hm|Hm].
  { destruct (NoteEvent.merge_request e) as [mr|]; (split; [|split]).
    - split; [done|]. by intros (_ & ? & _).
    - intros err. split; [done|]. intros [_ [[_ ?]|[Ht _]]]; [done|by rewrite Hm in Ht].
    - intros out <-%Return_Some_inj. by eexists (lit "Merge Request Comment (" ++ _).
    - split; [done|]. by intros (_ & ? & _).
    - intros err. split; [intros [= <-]; split; [done|by left]|by intros [-> _]].
    - intros out [=]. }
  destruct (decide (type = lit "Issue")) as [Hi|Hi].
  { destruct (NoteEvent.issue e) as [issue|]; (split; [|split]).
    - split; [done|]. by intros (_ & _ & ?).
    - intros err. split; [done|]. intros [_ [[Ht _]|[_ ?]]]; done.
    - intros out <-%Return_Some_inj. by eexists (lit "Issue Comment (" ++ _).
    - split; [done|]. by intros (_ & _ & ?).
    - intros err. split; [intros [= <-]; split; [done|by right]|by intros [-> _]].
    - intros out [=]. }
  split; [|split].
  - done.
  - intros err. split; [done|]. intros [_ [[? _]|[? _]]]; done.
  - intros out [=].
Qed.

Lemma split_join_front (front : list jsstring) (last : jsstring) :
  Forall (λ p, nl ∉ p) front →
  split nl (join LF (front ++ [last])) = front ++ split nl last.
Proof.
  intros Hfree. rewrite split_join by (intros [_ [=]]%app_eq_nil).
  rewrite map_app, concat_app. simpl. rewrite app_nil_r. f_equal.
  induction Hfree as [|p ps Hp _ IH]; [done|].
  simpl. by rewrite split_free, IH.
Qed.

(** X11. A merge request gets a message when its action is [open], and
    only then. The message is five joined strings; when the header, the
    branch summary, the author and the URL hold no newline they are its
    first four lines, the second one reading [target/branch <- source/branch],
    and the lines of the collapsed title follow. *)
Theorem merge_request_message (e : MergeRequestEvent.t) :
  let a := MergeRequestEvent.object_attributes e in
  let front :=
    [ lit "[GitLab] Pull Request Opened ("
        ++ path_with_namespace (MergeRequestEvent.project e)
        ++ lit "#" ++ number_to_string (MergeRequestEvent.iid a) ++ lit ")";
      path_with_namespace (MergeRequestEvent.target a) ++ lit "/"
        ++ MergeRequestEvent.target_branch a ++ lit " <- "
        ++ path_with_namespace (MergeRequestEvent.source a) ++ lit "/"
        ++ MergeRequestEvent.source_branch a;
      lit "User: " ++ name (MergeRequestEvent.user e);
      lit "URL: " ++ MergeRequestEvent.url a ] in
  (merge_request_handler e = Return None ↔ MergeRequestEvent.action a ≠ lit "open")
  ∧ (MergeRequestEvent.action a = lit "open" →
     ∃ out, merge_request_handler e = Return (Some out)
            ∧ out = join LF (front ++ [collapse (MergeRequestEvent.title a)])
            ∧ (Forall (λ p, nl ∉ p) front →
               split nl out = front ++ split nl (collapse (MergeRequestEvent.title a)))).
Proof.
  intros a front. unfold merge_request_handler. fold a.
  destruct (decide (MergeRequestEvent.action a = lit "open")) as [Hopen|Hother].
  - split; [split; [done|by intros ?]|]. intros _.
    eexists. split; [reflexivity|]. split; [reflexivity|].
    intros Hfree.
    by apply (split_join_front front (collapse (MergeRequestEvent.title a))).
  - split; [done|]. by intros ?.
Qed.

Lemma merge_request_message_witness :
  ∃ out, merge_request_handler (sample_merge_request "open" "Show tag pushes")
         = Return (Some out)
         ∧ out = lit "[GitLab] Pull Request Opened (koishijs/koishi#7)
koishijs/koishi/master <- shigma/koishi/fix-tags
User: shigma
URL: https://gitlab.com/koishijs/koishi/-/merge_requests/7
Show tag pushes".
Proof.
  destruct (proj2 (merge_request_message (sample_merge_request "open" "Show tag pushes"))
              eq_refl) as (out & Hout & Heq & _).
  exists out. split; [exact Hout|]. rewrite Heq. reflexivity.
Defined.

Lemma join_head (p : jsstring) (parts : list jsstring) :
  ∃ tail, join LF (p :: parts) = p ++ tail.
Proof.
  destruct parts as [|q parts].
  - exists []. simpl. by rewrite app_nil_r.
  - by exists (nl :: join LF (q :: parts)).
Qed.

(** X12. Every message a handler gives starts with [[GitLab] ]; none is
    empty, so the router sends each one. *)
Theorem announced_prefix (out : jsstring) :
  announced out → (∃ rest, out = lit "[GitLab] " ++ rest) ∧ out ≠ [].
Proof.
  intros Hout.
  assert (∃ rest, out = lit "[GitLab] " ++ rest) as [rest ->];
    [|split; [by exists rest|discriminate]].
  assert (∀ rest parts, ∃ rest', join LF ((lit "[GitLab] " ++ rest) :: parts)
                                 = lit "[GitLab] " ++ rest') as Hjoin.
  { intros rest parts. destruct (join_head (lit "[GitLab] " ++ rest) parts) as [tail ->].
    exists (rest ++ tail). by rewrite <- app_assoc. }
  destruct Hout as [e out Hout | e out Hout | e out Hout | e out Hout | e out Hout].
  - unfold push_handler in Hout. destruct (test_zero_hash _); [done|].
    apply Return_Some_inj in Hout as <-. apply (Hjoin (lit "Push (" ++ _)).
  - apply Return_Some_inj in Hout as <-. by eexists.
  - unfold issue_handler in Hout. case_decide; [|done].
    apply Return_Some_inj in Hout as <-. apply (Hjoin (lit "Issue Opened (" ++ _)).
  - unfold note_handler in Hout. repeat case_decide; try done.
    + apply Return_Some_inj in Hout as <-. apply (Hjoin (lit "Commit Comment (" ++ _)).
    + destruct (NoteEvent.merge_request e); [|done].
      apply Return_Some_inj in Hout as <-.
      apply (Hjoin (lit "Merge Request Comment (" ++ _)).
    + destruct (NoteEvent.issue e); [|done].
      apply Return_Some_inj in Hout as <-. apply (Hjoin (lit "Issue Comment (" ++ _)).
  - unfold merge_request_handler in Hout. case_decide; [|done].
    apply Return_Some_inj in Hout as <-.
    apply (Hjoin (lit "Pull Request Opened (" ++ _)).
Qed.

Lemma announced_prefix_witness :
  (∃ rest, lit "[GitLab] koishijs/koishi published tag v1.0.0" = lit "[GitLab] " ++ rest)
  ∧ lit "[GitLab] koishijs/koishi published tag v1.0.0" ≠ [].
Proof.
  apply announced_prefix.
  apply (announced_tag_push (payload (sample_tag "koishijs/koishi"))).
  reflexivity.
Defined.

(** ** Runs of registrations *)

Section runs.

Implicit Types (r : registry) (given : option WebhookConfig)
  (options : gmap jsstring (list Z))
  (calls : list (option WebhookConfig * gmap jsstring (list Z))).

Ltac by_guards given r :=
  unfold apply;
  destruct (webhooks r !! key_of (spread defaultOptions given)) eqn:?; simpl;
  destruct (servers r !! option_port (spread defaultOptions given)) eqn:?; simpl.

Lemma apply_all_cons given options calls r :
  apply_all ((given, options) :: calls) r
  = ((apply_all calls (apply given options r).1.1).1,
     (apply given options r).2 :: (apply_all calls (apply given options r).1.1).2).
Proof.
  simpl. destruct (apply given options r) as [[r' c] w]. simpl.
  by destruct (apply_all calls r').
Qed.

Lemma apply_all_app calls calls' r :
  apply_all (calls ++ calls') r
  = ((apply_all calls' (apply_all calls r).1).1,
     (apply_all calls r).2 ++ (apply_all calls' (apply_all calls r).1).2).
Proof.
  revert r. induction calls as [|[given options] calls IH]; intros r.
  - simpl. by destruct (apply_all calls' r).
  - rewrite <- app_comm_cons, !apply_all_cons. simpl. by rewrite IH.
Qed.

Lemma apply_receivers given options r :
  receivers (apply given options r).1.1
  = match webhooks r !! key_of (spread defaultOptions given) with
    | Some _ => receivers r
    | None => receivers r ++ [spread defaultOptions given]
    end.
Proof. by by_guards given r. Qed.

Lemma apply_routes given options r :
  routes (apply given options r).1.1 = routes r ++ [((apply given options r).2, options)].
Proof. by by_guards given r. Qed.

(** The keys registered after a call: those before, and the call's. *)
Lemma apply_webhooks_dom given options r (k : jsstring) :
  is_Some (webhooks (apply given options r).1.1 !! k)
  ↔ is_Some (webhooks r !! k) ∨ k = key_of (spread defaultOptions given).
Proof.
  rewrite apply_webhooks. simpl.
  destruct (webhooks r !! key_of _) eqn:E.
  - split; [by left|]. intros [?| ->]; [done|]. by rewrite E.
  - rewrite lookup_insert_is_Some'. split; intros [?|?]; auto.
Qed.

Lemma apply_servers_dom given options r (p : Z) :
  is_Some (servers (apply given options r).1.1 !! p)
  ↔ is_Some (servers r !! p) ∨ p = option_port (spread defaultOptions given).
Proof.
  rewrite apply_servers. simpl.
  destruct (servers r !! option_port _) eqn:E.
  - split; [by left|]. intros [?| ->]; [done|]. by rewrite E.
  - rewrite lookup_insert_is_Some'. split; intros [?|?]; auto.
Qed.

Lemma apply_all_webhooks_dom calls r (k : jsstring) :
  is_Some (webhooks (apply_all calls r).1 !! k)
  ↔ is_Some (webhooks r !! k) ∨ k ∈ call_key <$> calls.
Proof.
  revert r. induction calls as [|[given options] calls IH]; intros r.
  - simpl. split; [by left|]. intros [?|?%elem_of_nil]; done.
  - rewrite apply_all_cons. simpl. rewrite IH, apply_webhooks_dom, elem_of_cons.
    unfold call_key at 2. simpl. tauto.
Qed.

Lemma apply_all_servers_dom calls r (p : Z) :
  is_Some (servers (apply_all calls r).1 !! p)
  ↔ is_Some (servers r !! p) ∨ p ∈ call_port <$> calls.
Proof.
  revert r. induction calls as [|[given options] calls IH]; intros r.
  - simpl. split; [by left|]. intros [?|?%elem_of_nil]; done.
  - rewrite apply_all_cons. simpl. rewrite IH, apply_servers_dom, elem_of_cons.
    unfold call_port at 2. simpl. tauto.
Qed.

Lemma apply_receivers_prefix given options r :
  receivers r `prefix_of` receivers (apply given options r).1.1.
Proof.
  rewrite apply_receivers. destruct (webhooks r !! _); [done|]. by apply prefix_app_r.
Qed.

Lemma apply_listeners_prefix given options r :
  listeners r `prefix_of` listeners (apply given options r).1.1.
Proof.
  rewrite apply_listeners. simpl. destruct (servers r !! _); [done|]. by apply prefix_app_r.
Qed.

Lemma apply_all_receivers_prefix calls r :
  receivers r `prefix_of` receivers (apply_all calls r).1.
Proof.
  revert r. induction calls as [|[given options] calls IH]; intros r; [done|].
  rewrite apply_all_cons. simpl. etrans; [apply apply_receivers_prefix|apply IH].
Qed.


Lemma apply_all_length calls r : length (apply_all calls r).2 = length calls.
Proof.
  revert r. induction calls as [|[given options] calls IH]; intros r; [done|].
  rewrite apply_all_cons. simpl. by rewrite IH.
Qed.

Lemma apply_keyed given options r : keyed r → keyed (apply given options r).1.1.
Proof.
  intros Hkeyed k w. rewrite apply_webhooks, apply_receivers. simpl.
  destruct (webhooks r !! key_of _) eqn:E; [apply Hkeyed|].
  destruct (decide (key_of (spread defaultOptions given) = k)) as [<-|Hne].
  - rewrite lookup_insert_eq. intros [= <-]. eexists. split; [|done].
    by apply list_lookup_middle.
  - rewrite lookup_insert_ne by done. intros (c & Hc & Hk)%Hkeyed.
    exists c. split; [by apply lookup_app_l_Some|done].
Qed.

Lemma apply_all_keyed calls r : keyed r → keyed (apply_all calls r).1.
Proof.
  revert r. induction calls as [|[given options] calls IH]; intros r Hkeyed; [done|].
  rewrite apply_all_cons. simpl. by apply IH, apply_keyed.
Qed.

Lemma empty_keyed : keyed empty_registry.
Proof. intros k w Hk. simpl in Hk. by rewrite lookup_empty in Hk. Qed.

(** Each call of a run is given the receiver its key names at the end. *)
Lemma apply_all_used calls r (i : nat) c :
  calls !! i = Some c →
  ∃ w, (apply_all calls r).2 !! i = Some w
       ∧ webhooks (apply_all calls r).1 !! call_key c = Some w.
Proof.
  revert r i. induction calls as [|[given options] calls IH]; intros r i Hi; [done|].
  rewrite apply_all_cons. simpl. destruct i as [|i]; simpl in *.
  - injection Hi as <-. eexists. split; [done|].
    apply apply_all_keeps, apply_registers.
  - by apply IH.
Qed.

(** X13. In a run of registrations that starts with empty registries, two
    calls are given the same receiver when the keys of their
    configurations, path then secret then port written one after the
    other, are equal, and only then. *)
Theorem same_receiver_iff_same_key calls (i j : nat) ci cj :
  calls !! i = Some ci →
  calls !! j = Some cj →
  let used := (apply_all calls empty_registry).2 in
  used !! i = used !! j ↔ call_key ci = call_key cj.
Proof.
  intros Hi Hj used. subst used.
  destruct (apply_all_used calls empty_registry i ci Hi) as (wi & -> & Hwi).
  destruct (apply_all_used calls empty_registry j cj Hj) as (wj & -> & Hwj).
  pose proof (apply_all_keyed calls empty_registry empty_keyed) as Hkeyed.
  split.
  - intros [= <-].
    destruct (Hkeyed _ _ Hwi) as (c & Hc & <-).
    destruct (Hkeyed _ _ Hwj) as (c' & Hc' & <-). congruence.
  - intros Hkey. rewrite Hkey in Hwi. congruence.
Qed.

Lemma same_receiver_iff_same_key_witness :
  let calls := [ (Some {| port := Some 2140%Z; secret := Some (lit "1"); path := None |}, ∅);
                 (Some {| port := Some 8080%Z; secret := None; path := None |}, ∅);
                 (None, sample_options) ] in
  (apply_all calls empty_registry).2 !! 0%nat = (apply_all calls empty_registry).2 !! 2%nat
  ↔ call_key (Some {| port := Some 2140%Z; secret := Some (lit "1"); path := None |}, ∅)
    = call_key (None, sample_options).
Proof.
  intros calls. by apply (same_receiver_iff_same_key calls 0 2).
Defined.

(** X14. A receiver is built from the configuration of the first call that
    has its key: a call whose key no earlier call of the run had is given a
    receiver built from its own configuration. *)
Theorem receiver_of_first_call calls before after c :
  calls = before ++ c :: after →
  call_key c ∉ call_key <$> before →
  let out := apply_all calls empty_registry in
  ∃ w, out.2 !! length before = Some w
       ∧ receivers out.1 !! w = Some (spread defaultOptions c.1).
Proof.
  intros -> Hfirst out. subst out. destruct c as [given options].
  rewrite apply_all_app, apply_all_cons. simpl.
  set (r1 := (apply_all before empty_registry).1).
  assert (webhooks r1 !! key_of (spread defaultOptions given) = None) as Hnone.
  { apply eq_None_not_Some. intros [Hsome|Hin]%apply_all_webhooks_dom; [|done].
    simpl in Hsome. rewrite lookup_empty in Hsome. by destruct Hsome. }
  exists (length (receivers r1)). split.
  - rewrite apply_receiver, Hnone. simpl.
    apply list_lookup_middle. by rewrite apply_all_length.
  - eapply prefix_lookup_Some; [|apply apply_all_receivers_prefix].
    rewrite apply_receivers, Hnone. by apply list_lookup_middle.
Qed.

Lemma receiver_of_first_call_witness :
  let calls := [ (Some {| port := Some 2140%Z; secret := Some (lit "1"); path := None |}, ∅);
                 (None, sample_options) ] in
  ∃ w, (apply_all calls empty_registry).2 !! 0%nat = Some w
       ∧ receivers (apply_all calls empty_registry).1 !! w
         = Some {| option_port := 2140; option_secret := lit "1"; option_path := lit "/" |}.
Proof.
  intros calls.
  apply (receiver_of_first_call calls []
           [(None, sample_options)]
           (Some {| port := Some 2140%Z; secret := Some (lit "1"); path := None |}, ∅)).
  - reflexivity.
  - apply not_elem_of_nil.
Defined.

Lemma apply_one_receiver_per_key given options r :
  one_receiver_per_key r → one_receiver_per_key (apply given options r).1.1.
Proof.
  intros [Hnodup Hdom]. unfold one_receiver_per_key.
  rewrite apply_receivers, apply_webhooks. simpl.
  destruct (webhooks r !! key_of _) eqn:E; [done|].
  rewrite fmap_app. simpl. split.
  - apply NoDup_app. split; [done|]. split; [|apply NoDup_singleton].
    intros k Hk ->%list_elem_of_singleton.
    apply Hdom in Hk. rewrite E in Hk. by destruct Hk.
  - intros k. rewrite elem_of_app, list_elem_of_singleton, lookup_insert_is_Some', Hdom.
    split; intros [?|?]; auto.
Qed.

Lemma apply_all_one_receiver_per_key calls r :
  one_receiver_per_key r → one_receiver_per_key (apply_all calls r).1.
Proof.
  revert r. induction calls as [|[given options] calls IH]; intros r Hinv; [done|].
  rewrite apply_all_cons. simpl. by apply IH, apply_one_receiver_per_key.
Qed.

Lemma apply_ports_listed given options r :
  ports_listed r → ports_listed (apply given options r).1.1.
Proof.
  intros Hlisted p. rewrite apply_listeners, apply_servers. simpl.
  destruct (servers r !! option_port _) eqn:E; [apply Hlisted|].
  rewrite fmap_app, elem_of_app, lookup_insert_is_Some'. simpl.
  intros [<-|Hp]; [right; apply list_elem_of_here|left; by apply Hlisted].
Qed.

Lemma apply_all_ports_listed calls r :
  ports_listed r → ports_listed (apply_all calls r).1.
Proof.
  revert r. induction calls as [|[given options] calls IH]; intros r Hinv; [done|].
  rewrite apply_all_cons. simpl. by apply IH, apply_ports_listed.
Qed.

Lemma apply_all_one_server_per_port calls r :
  one_server_per_port r → one_server_per_port (apply_all calls r).1.
Proof.
  revert r. induction calls as [|[given options] calls IH]; intros r Hinv; [done|].
  rewrite apply_all_cons. simpl. by apply IH, apply_one_server_per_port.
Qed.


(** X15. A run of registrations that starts with empty registries creates
    one receiver for each key its calls have, no two for the same key. *)
Theorem one_receiver_for_each_key calls :
  let r := (apply_all calls empty_registry).1 in
  NoDup (key_of <$> receivers r)
  ∧ ∀ k, k ∈ key_of <$> receivers r ↔ k ∈ call_key <$> calls.
Proof.
  intros r.
  assert (one_receiver_per_key empty_registry) as Hempty.
  { split; [constructor|]. intros k. simpl. rewrite lookup_empty.
    split; [by intros ?%elem_of_nil|by intros [? ?]]. }
  destruct (apply_all_one_receiver_per_key calls _ Hempty) as [Hnodup Hdom].
  split; [done|]. intros k. fold r in Hdom. rewrite Hdom.
  unfold r. rewrite apply_all_webhooks_dom. simpl. rewrite lookup_empty.
  split; [intros [[? ?]|?]; done|by right].
Qed.

(** X16. A run of registrations that starts with empty registries creates
    one server for each port its calls have, no two on the same port. *)
Theorem one_server_for_each_port calls :
  let r := (apply_all calls empty_registry).1 in
  NoDup (listeners r).*2
  ∧ ∀ p, p ∈ (listeners r).*2 ↔ p ∈ call_port <$> calls.
Proof.
  intros r.
  destruct (apply_all_one_server_per_port calls _ empty_one_server_per_port)
    as [Hnodup Hserved].
  assert (ports_listed empty_registry) as Hempty.
  { intros p. simpl. rewrite lookup_empty. by intros [? ?]. }
  pose proof (apply_all_ports_listed calls _ Hempty) as Hlisted.
  split; [done|]. intros p. split.
  - intros [[? Hp]|Hp]%Hserved%apply_all_servers_dom; [|done].
    simpl in Hp. by rewrite lookup_empty in Hp.
  - intros Hp. apply Hlisted, apply_all_servers_dom. by right.
Qed.



Lemma spread_store (config : Option) : spread defaultOptions (store config) = config.
Proof. by destruct config. Qed.

(** X18. A second call of [apply] on the same app finds the configuration
    the first call stored: it is given the same receiver and creates no
    receiver and no server, and yet it registers its handlers on that
    receiver once more. *)
Theorem reapply_same_app given options options' r :
  let first := apply given options r in
  let again := apply (store first.1.2) options' first.1.1 in
  again.1.2 = first.1.2
  ∧ again.2 = first.2
  ∧ webhooks again.1.1 = webhooks first.1.1
  ∧ servers again.1.1 = servers first.1.1
  ∧ receivers again.1.1 = receivers first.1.1
  ∧ listeners again.1.1 = listeners first.1.1
  ∧ routes again.1.1 = routes first.1.1 ++ [(first.2, options')].
Proof.
  intros first again.
  assert (spread defaultOptions (store first.1.2) = spread defaultOptions given) as Hsame.
  { unfold first. by rewrite apply_config, spread_store. }
  pose proof (apply_registers given options r) as Hkey. fold first in Hkey.
  assert (is_Some (servers first.1.1 !! option_port (spread defaultOptions given)))
    as [server Hport] by (apply apply_servers_dom; by right).
  assert (again.2 = first.2) as Hreceiver.
  { unfold again. by rewrite apply_receiver, Hsame, Hkey. }
  repeat split.
  - unfold again. rewrite apply_config, Hsame. unfold first. by rewrite apply_config.
  - done.
  - unfold again. by rewrite apply_webhooks, Hsame; simpl; rewrite Hkey.
  - unfold again. by rewrite apply_servers, Hsame; simpl; rewrite Hport.
  - unfold again. by rewrite apply_receivers, Hsame, Hkey.
  - unfold again. by rewrite apply_listeners, Hsame; simpl; rewrite Hport.
  - fold again in Hreceiver. unfold again at 1. rewrite apply_routes.
    fold again. by rewrite Hreceiver.
Qed.

Lemma apply_webhooks_subseteq given options r :
  webhooks r ⊆ webhooks (apply given options r).1.1.
Proof.
  rewrite apply_webhooks. simpl.
  destruct (webhooks r !! key_of _) eqn:E; [done|]. by apply insert_subseteq.
Qed.

Lemma apply_servers_subseteq given options r :
  servers r ⊆ servers (apply given options r).1.1.
Proof.
  rewrite apply_servers. simpl.
  destruct (servers r !! option_port _) eqn:E; [done|]. by apply insert_subseteq.
Qed.

(** X19. The registries only grow: through any run of registrations an
    entry of [webhooks] or [servers] keeps its value, every receiver and
    server created stays, each in its place, and every call adds its
    handlers, one entry of [routes] per call. *)
Theorem registries_only_grow calls r :
  let r' := (apply_all calls r).1 in
  webhooks r ⊆ webhooks r'
  ∧ servers r ⊆ servers r'
  ∧ receivers r `prefix_of` receivers r'
  ∧ listeners r `prefix_of` listeners r'
  ∧ ∃ added, routes r' = routes r ++ added
             ∧ added.*1 = (apply_all calls r).2
             ∧ added.*2 = calls.*2.
Proof.
  revert r. induction calls as [|[given options] calls IH]; intros r r'.
  - repeat split; try done. exists []. by rewrite app_nil_r.
  - subst r'. rewrite apply_all_cons. simpl.
    destruct (IH (apply given options r).1.1) as (Hw & Hs & Hr & Hl & added & Hroutes & H1 & H2).
    split; [etrans; [apply apply_webhooks_subseteq|done]|].
    split; [etrans; [apply apply_servers_subseteq|done]|].
    split; [etrans; [apply apply_receivers_prefix|done]|].
    split; [etrans; [apply apply_listeners_prefix|done]|].
    exists (((apply given options r).2, options) :: added).
    split; [|split].
    + by rewrite Hroutes, apply_routes, <- app_assoc.
    + by rewrite fmap_cons, H1.
    + by rewrite !fmap_cons, H2.
Qed.

End runs.

(** ** Registry keys *)

Lemma lit_String (c : ascii) (s : string) : lit (String c s) = N_of_ascii c :: lit s.
Proof. reflexivity. Qed.

Lemma digits_only (u : Decimal.uint) : Forall is_digit (lit (NilEmpty.string_of_uint u)).
Proof.
  induction u; simpl NilEmpty.string_of_uint; [constructor|..];
    rewrite lit_String; (constructor; [by vm_compute|done]).
Qed.

Lemma last_digit (l : jsstring) :
  l ≠ [] → Forall is_digit l → ∃ d, last l = Some d ∧ is_digit d.
Proof.
  intros Hne Hall. destruct (last l) as [d|] eqn:Hlast.
  - exists d. split; [done|].
    apply last_Some_elem_of in Hlast. by eapply Forall_forall in Hall.
  - by apply last_None in Hlast.
Qed.

Lemma number_to_string_last (z : Z) :
  ∃ d, last (number_to_string z) = Some d ∧ is_digit d.
Proof.
  assert (∀ u, ∃ d, last (lit (NilZero.string_of_uint u)) = Some d ∧ is_digit d) as Huint.
  { intros u. destruct u as [|u|u|u|u|u|u|u|u|u|u];
      [exists 48%N; split; [done|by vm_compute]|..];
      (eapply (last_digit (lit (NilEmpty.string_of_uint _)));
       [simpl NilEmpty.string_of_uint; by rewrite lit_String|apply digits_only]). }
  unfold number_to_string. destruct (Z.to_int z) as [u|u]; simpl NilZero.string_of_int.
  - apply Huint.
  - destruct (Huint u) as (d & Hd & Hdigit). exists d. split; [|done].
    rewrite lit_String, last_cons. by rewrite Hd.
Qed.

Lemma inherited_last (name : jsstring) :
  name ∈ Object_prototype → ∃ d, last name = Some d ∧ ¬ is_digit d.
Proof.
  unfold Object_prototype. intros Hin.
  repeat (apply elem_of_cons in Hin as [-> | Hin];
          [eexists; split; [vm_compute; reflexivity|]; unfold is_digit; lia|]).
  by apply elem_of_nil in Hin.
Qed.

(** X20. The keys [apply] reads [webhooks] and [servers] by never name a
    member that objects inherit: both end with a digit of the port. So
    [webhooks[key]] and [servers[config.port]] find what [apply] has stored
    there and nothing else. *)
Theorem registry_keys_own (config : Option) :
  (key_of config ∉ Object_prototype)
  ∧ (number_to_string (option_port config) ∉ Object_prototype).
Proof.
  destruct (number_to_string_last (option_port config)) as (d & Hd & Hdigit).
  split; intros (d' & Hd' & Hnot)%inherited_last.
  - unfold key_of in Hd'. rewrite !last_app, Hd in Hd'. congruence.
  - congruence.
Qed.
